(** * Trinity: the per-document position tracker and the multi-source executors

    A shallow embedding of [docwordspace.h] (class [Trinity::DocWordsSpace])
    and of [exec.h] (the collection overload of [exec_query] and
    [exec_query_par]), with the properties the design document states
    about them.

    Conventions.
    - Unsigned machine integers are values of [Z]; where the source does
      arithmetic on them the wrap-around is written with [wrap16] or
      [wrap32].
    - [positions] is a raw [calloc]ed block: it is a [list position], and an
      access outside the block (undefined behaviour in C++) makes the
      operation return [None].
    - Loops that are not structurally recursive take a [fuel] argument and
      return [None] when it runs out; the theorems give the fuel that is
      enough. *)

From stdpp Require Import base decidable numbers option list list_numbers gmap.

Local Open Scope Z_scope.

(** ** Machine integers *)

Definition UINT16_MAX : Z := 65535.

Definition wrap16 (x : Z) : Z := x mod 65536.

Definition wrap32 (x : Z) : Z := x mod 4294967296.

(** ** DocWordsSpace *)

Module DocWordsSpace.

(** [struct position { uint16_t docSeq; exec_term_id_t termID; }].
    [exec_term_id_t] is a 16-bit unsigned integer (the [static_assert] of the
    alternative [test] says so). *)
Record position : Type := mkPosition { docSeq : Z; termID : Z }.

(** What [calloc] and [memset(_, 0, _)] leave in a slot. *)
Definition zero_position : position := mkPosition 0 0.

(** The object: the block [positions], [maxPos] and [curSeq]. *)
Record t : Type := mkSpace { positions : list position; maxPos : Z; curSeq : Z }.

(** Modelled from the spec: the macro [require] of the header [common.h],
    which is not among the sources at hand.  The constructor "fails" when
    the condition it passes to [require] is false; otherwise the
    construction goes on. *)
Definition require {A : Type} (cond : Prop) `{Decision cond} (x : A) : option A :=
  if decide cond then Some x else None.

(** [positions[pos]] as an rvalue.  [tokenpos_t] is an unsigned integer. *)
Definition load (l : list position) (pos : Z) : option position :=
  if decide (0 <= pos) then l !! Z.to_nat pos else None.

(** [positions[pos] = x]. *)
Definition store (l : list position) (pos : Z) (x : position) : option (list position) :=
  if decide (0 <= pos < Z.of_nat (length l)) then Some (<[Z.to_nat pos := x]> l) else None.

(** [memset(positions, 0, sizeof(position) * cnt)]. *)
Definition memset0 (l : list position) (cnt : Z) : option (list position) :=
  if decide (0 <= cnt <= Z.of_nat (length l))
  then Some (replicate (Z.to_nat cnt) zero_position ++ drop (Z.to_nat cnt) l)
  else None.

(** [void reset()]. *)
Definition reset (s : t) : option t :=
  if decide (curSeq s = UINT16_MAX) then
    l ← memset0 (positions s) (wrap32 (maxPos s + 1));
    Some (mkSpace l (maxPos s) 1)
  else
    Some (mkSpace (positions s) (maxPos s) (wrap16 (curSeq s + 1))).

(** [void set(termID, pos)]: [positions[pos] = {curSeq, termID}]. *)
Definition set (tid pos : Z) (s : t) : option t :=
  l ← store (positions s) pos (mkPosition (curSeq s) tid);
  Some (mkSpace l (maxPos s) (curSeq s)).

(** [bool test(termID, pos) const]. *)
Definition test (tid pos : Z) (s : t) : option bool :=
  p ← load (positions s) pos;
  Some (bool_decide (docSeq p = curSeq s) && bool_decide (termID p = tid)).

(** [void unset(pos)]: [positions[pos].docSeq = 0], a write of one field. *)
Definition unset (pos : Z) (s : t) : option t :=
  p ← load (positions s) pos;
  l ← store (positions s) pos (mkPosition 0 (termID p));
  Some (mkSpace l (maxPos s) (curSeq s)).

(** The mutating operations, to speak about sequences of calls. *)
Inductive op : Type :=
  | OpReset
  | OpSet (tid pos : Z)
  | OpUnset (pos : Z).

Definition apply_op (o : op) (s : t) : option t :=
  match o with
  | OpReset => reset s
  | OpSet tid pos => set tid pos s
  | OpUnset pos => unset pos s
  end.

Fixpoint run (ops : list op) (s : t) : option t :=
  match ops with
  | [] => Some s
  | o :: ops' => s' ← apply_op o s; run ops' s'
  end.

(** The documented precondition of [set] and [unset]: [0 < pos <= maxPos]. *)
Definition valid_op (mx : Z) (o : op) : Prop :=
  match o with
  | OpReset => True
  | OpSet _ pos | OpUnset pos => 0 < pos <= mx
  end.

(** [o] is not a [set] at position [p]. *)
Definition not_set_at (p : Z) (o : op) : Prop :=
  match o with
  | OpSet _ pos => pos ≠ p
  | _ => True
  end.

(** The slot at [p] carries a generation other than the current one. *)
Definition stale (p : Z) (s : t) : Prop :=
  ∃ slot, load (positions s) p = Some slot ∧ docSeq slot ≠ curSeq s.

(** [reset()] called [n] times in a row. *)
Fixpoint reset_n (n : nat) (s : t) : option t :=
  match n with
  | O => Some s
  | S n' => s' ← reset s; reset_n n' s'
  end.

Section Limits.

(** [Trinity::Limits::MaxPosition] and [Trinity::Limits::MaxPhraseSize] are
    declared in a header that is not part of the sources at hand; they are
    parameters. *)
Variable MaxPosition MaxPhraseSize : Z.

(** [DocWordsSpace(const uint32_t max)].  The member initialisers [calloc]
    [max + 1 + MaxPhraseSize] zeroed slots and store [max]; the body sets
    [curSeq] to 1 and then has [require(max && max <= MaxPosition)]. *)
Definition new (max : Z) : option t :=
  let positions := replicate (Z.to_nat (wrap32 (max + 1 + MaxPhraseSize))) zero_position in
  let curSeq := 1 in
  require (max ≠ 0 ∧ max <= MaxPosition) (mkSpace positions max curSeq).

(** States the program can be in: a constructed object, then calls that
    respect the precondition on positions. *)
Inductive reachable : t → Prop :=
  | reach_new max s :
      0 <= max < 4294967296 → new max = Some s → reachable s
  | reach_step s o s' :
      reachable s → valid_op (maxPos s) o → apply_op o s = Some s' → reachable s'.

(** The representation invariant. *)
Record inv (s : t) : Prop := mkInv {
  inv_max : 0 < maxPos s <= MaxPosition;
  inv_len : Z.of_nat (length (positions s)) = maxPos s + 1 + MaxPhraseSize;
  inv_seq : 1 <= curSeq s <= UINT16_MAX;
  inv_slots : ∀ i p, positions s !! i = Some p → 0 <= docSeq p <= curSeq s;
  inv_guard : ∀ i p, positions s !! i = Some p → maxPos s < Z.of_nat i → p = zero_position
}.

End Limits.

(** A small instance on which the statements below are run: the limits are
    8 positions and phrases of 2 terms, the object is made for 3 positions. *)
Definition example_space : t := mkSpace (replicate 6 zero_position) 3 1.

(** The same object after [set(7, 2)]. *)
Definition example_marked : t :=
  mkSpace [zero_position; zero_position; mkPosition 1 7;
           zero_position; zero_position; zero_position] 3 1.

(** The object after [set(7, 2)] and 65534 resets: the counter is at its last
    value and position 2 still stores what was set in generation 1. *)
Definition example_last_generation : t :=
  mkSpace [zero_position; zero_position; mkPosition 1 7;
           zero_position; zero_position; zero_position] 3 65535.

(** A state in the last generation whose guard slot at offset 4 has been
    written, as a [set] past [maxPos] leaves it. *)
Definition example_guard_written : t :=
  mkSpace [zero_position; zero_position; mkPosition 65535 7;
           zero_position; mkPosition 65535 9; zero_position] 3 65535.

End DocWordsSpace.

(** ** The executors of [exec.h] *)

Module Exec.

(** What the calling thread does, in order: a single-source [exec_query]
    run inline for source [i], a task launched with [std::async] for source
    [i], and [get()] on the future of the task for source [i]. *)
Inductive event : Type :=
  | EvInline (i : Z)
  | EvSpawn (i : Z)
  | EvGet (i : Z).

Section Executors.

(** The types of the headers [queries.h], [index_source.h], [docidupdates.h]
    and [matches.h]; [T] is the [MatchedIndexDocumentsFilter] subclass and
    [Arg] the pack of its constructor arguments. *)
Context {query IndexSource masked_documents_registry IndexDocumentsFilter Arg T : Type}.

(** The single-source [exec_query], declared in [exec.h] and defined
    elsewhere.  It mutates the filter it is given and nothing else, so it is
    a function to the filter after the run; the optional document filter [f]
    may be [nullptr]. *)
Variable exec_query_source :
  query → IndexSource → masked_documents_registry → T → option IndexDocumentsFilter → T.

(** [std::make_unique<T>(std::forward<Arg>(args)...)] does two things.
    [make_unique args] is the filter it constructs, from the arguments as
    they are when the expression is evaluated. *)
Variable make_unique : Arg → T.

(** [forwarded args] is what the expression leaves in [args]: the arguments
    themselves when they were passed as lvalues, which are copied, and
    moved-from arguments when they were passed as rvalues. *)
Variable forwarded : Arg → Arg.

(** [IndexSourcesCollection]: the vector [sources] and
    [scanner_registry_for(idx)]. *)
Record IndexSourcesCollection : Type := mkCollection {
  sources : list IndexSource;
  scanner_registry_for : Z → masked_documents_registry
}.

(** [collection->sources[i]]. *)
Definition source_at (collection : IndexSourcesCollection) (i : Z) : option IndexSource :=
  if decide (0 <= i) then sources collection !! Z.to_nat i else None.

(** The four statements that the sequential loop body, the [n == 1] branch
    and the task lambda have in common: take source [i] and its scanner,
    construct a filter from [args] as they are now, run the query on it and
    yield the filter; [args] are left as the construction leaves them. *)
Definition run_source (q : query) (collection : IndexSourcesCollection)
    (f : option IndexDocumentsFilter) (args : Arg) (i : Z) : option (T * Arg) :=
  source ← source_at collection i;
  let scanner := scanner_registry_for collection i in
  let filter := make_unique args in
  Some (exec_query_source q source scanner filter f, forwarded args).

(** [for (uint32_t i{0}; i != n; ++i) { ...; out.push_back(std::move(filter)); }]
    of the sequential executor; every iteration forwards the same [args]. *)
Fixpoint exec_query_loop (fuel : nat) (q : query) (collection : IndexSourcesCollection)
    (f : option IndexDocumentsFilter) (args : Arg) (n i : Z)
    (out : list T) (tr : list event) : option (list T * list event) :=
  match fuel with
  | O => None
  | S fuel' =>
      if decide (i = n) then Some (out, tr)
      else
        '(filter, args') ← run_source q collection f args i;
        exec_query_loop fuel' q collection f args' n (wrap32 (i + 1))
          (out ++ [filter]) (tr ++ [EvInline i])
  end.

(** [exec_query<T>(in, collection, f, args...)]: the result vector and the
    events of the calling thread. *)
Definition exec_query (fuel : nat) (q : query) (collection : IndexSourcesCollection)
    (f : option IndexDocumentsFilter) (args : Arg) : option (list T * list event) :=
  let n := Z.of_nat (length (sources collection)) in
  exec_query_loop fuel q collection f args n 0 [] [].

(** [std::future<std::unique_ptr<T>>] of a task launched for source
    [task_index]: [get()] yields [task_value]. *)
Record future : Type := mkFuture { task_index : Z; task_value : T }.

(** The tasks capture [args] by reference, and it is the scheduler that
    decides in which order they construct their filters.  [turn i] is the
    number of constructions that have forwarded [args] when the task for
    source [i] constructs its own filter, so these are the arguments that
    task finds.  A construction is taken to be one step: two of them at the
    same time are a data race when the arguments were passed as rvalues. *)
Definition task_arguments (turn : Z → nat) (args : Arg) (i : Z) : Arg :=
  Nat.iter (turn i) forwarded args.

(** [for (uint32_t i{0}; i != n; ++i) futures.push_back(std::async(...))].
    Apart from [args], a task reads the query, its own source and its own
    scanner only. *)
Fixpoint spawn_loop (fuel : nat) (turn : Z → nat) (q : query)
    (collection : IndexSourcesCollection)
    (f : option IndexDocumentsFilter) (args : Arg) (n i : Z)
    (futures : list future) (tr : list event) : option (list future * list event) :=
  match fuel with
  | O => None
  | S fuel' =>
      if decide (i = n) then Some (futures, tr)
      else
        '(filter, _) ← run_source q collection f (task_arguments turn args i) i;
        spawn_loop fuel' turn q collection f args n (wrap32 (i + 1))
          (futures ++ [mkFuture i filter]) (tr ++ [EvSpawn i])
  end.

(** [while (futures.size()) { auto &f = futures.back();
    out.push_back(std::move(f.get())); futures.pop_back(); }]. *)
Fixpoint collect_loop (fuel : nat) (futures : list future)
    (out : list T) (tr : list event) : option (list T * list event) :=
  match fuel with
  | O => None
  | S fuel' =>
      match last futures with
      | None => Some (out, tr)
      | Some fu =>
          collect_loop fuel' (removelast futures)
            (out ++ [task_value fu]) (tr ++ [EvGet (task_index fu)])
      end
  end.

(** [exec_query_par<T>(in, collection, f, args...)]. *)
Definition exec_query_par (turn : Z → nat) (fuel : nat) (q : query)
    (collection : IndexSourcesCollection)
    (f : option IndexDocumentsFilter) (args : Arg) : option (list T * list event) :=
  let n := Z.of_nat (length (sources collection)) in
  if decide (n = 0) then Some ([], [])
  else if decide (n = 1) then
    '(filter, _) ← run_source q collection f args 0;
    Some ([filter], [EvInline 0])
  else
    '(futures, tr) ← spawn_loop fuel turn q collection f args n 0 [] [];
    collect_loop fuel futures [] tr.

(** The filter that the single-source [exec_query] leaves when it is run
    for source number [i], which is [source], on a filter constructed from
    [args]. *)
Definition source_filter (q : query) (collection : IndexSourcesCollection)
    (f : option IndexDocumentsFilter) (args : Arg) (i : Z) (source : IndexSource) : T :=
  exec_query_source q source (scanner_registry_for collection i) (make_unique args) f.

(** The result the design document asks of both executors: one filter per
    source, in the order of the sources, each constructed from the given
    arguments. *)
Definition filters_in_source_order (q : query) (collection : IndexSourcesCollection)
    (f : option IndexDocumentsFilter) (args : Arg) : list T :=
  imap (λ i source, source_filter q collection f args (Z.of_nat i) source)
       (sources collection).

(** The arguments as the sequential loop finds them at source [i], after [i]
    constructions. *)
Definition loop_arguments (args : Arg) (i : nat) : Arg := Nat.iter i forwarded args.

End Executors.

Arguments IndexSourcesCollection : clear implicits.

(** A small instance on which the statements below are run.  A filter is the
    list of numbers it has recorded, starting with its constructor arguments;
    a run on a source records the sum of the source and of its scanner; the
    scanner of source [i] is [100 * i]. *)
Definition example_exec_query (q : unit) (source scanner : Z) (filter : list Z)
    (f : option unit) : list Z :=
  filter ++ [source + scanner].

Definition example_make_unique (args : list Z) : list Z := args.

(** Arguments passed as lvalues: a construction copies them. *)
Definition example_copied (args : list Z) : list Z := args.

(** Arguments passed as rvalues: a construction moves the list out and leaves
    it empty. *)
Definition example_moved (args : list Z) : list Z := [].

(** The tasks construct their filters in the order they were launched. *)
Definition example_turn (i : Z) : nat := Z.to_nat i.

Definition example_collection (srcs : list Z) : IndexSourcesCollection Z Z :=
  mkCollection srcs (λ i, 100 * i).

End Exec.

(** ** The table a DocWordsSpace stands for *)

Module PositionTable.

Import DocWordsSpace.

(** Which term occupies which position of the document being scanned: what a
    tracker without the generation counter, cleared for every document, would
    hold.  [reset] empties the table, [set] enters a term, [unset] removes
    the entry. *)
Definition apply_op (o : op) (m : gmap Z Z) : gmap Z Z :=
  match o with
  | OpReset => ∅
  | OpSet tid pos => <[pos := tid]> m
  | OpUnset pos => delete pos m
  end.

Fixpoint run (ops : list op) (m : gmap Z Z) : gmap Z Z :=
  match ops with
  | [] => m
  | o :: ops' => run ops' (apply_op o m)
  end.

(** The object [s] holds the table [m]: a slot of the block with the current
    generation is an entry of the table, any other slot is no entry. *)
Definition represents (s : t) (m : gmap Z Z) : Prop :=
  ∀ pos slot, load (positions s) pos = Some slot →
    m !! pos = if decide (docSeq slot = curSeq s) then Some (termID slot) else None.

End PositionTable.

(** ** The alternative [test] of [docwordspace.h] *)

Module DocWordsSpaceAlt.

Import DocWordsSpace.

(** A value of a 16-bit unsigned type. *)
Definition is_u16 (x : Z) : Prop := 0 <= x < 65536.

(** [*(uint32_t * )&positions[pos]] on a little-endian machine, which the
    source asks for: the four bytes of a slot read as one word have [docSeq]
    in the low half and [termID] in the high half. *)
Definition word_of_position (p : position) : Z :=
  Z.lor (docSeq p) (Z.shiftl (termID p) 16).

(** The [test] of the [#else] branch:
    [((uint32_t(termID) << 16) | curSeq) == *(uint32_t * )&positions[pos]]. *)
Definition test_alt (tid pos : Z) (s : t) : option bool :=
  p ← load (positions s) pos;
  Some (bool_decide (Z.lor (wrap32 (Z.shiftl tid 16)) (curSeq s) = word_of_position p)).

(** A call that passes a 16-bit term, as the type [exec_term_id_t] of the
    argument of [set] has it. *)
Definition u16_op (o : op) : Prop :=
  match o with
  | OpSet tid _ => is_u16 tid
  | _ => True
  end.

End DocWordsSpaceAlt.

(** ** Facts about the machine integers *)

Lemma wrap16_small x : 0 <= x < 65536 → wrap16 x = x.
Proof. intros. unfold wrap16. by apply Z.mod_small. Qed.

Lemma wrap32_small x : 0 <= x < 4294967296 → wrap32 x = x.
Proof. intros. unfold wrap32. by apply Z.mod_small. Qed.

(** ** Properties of DocWordsSpace *)

Module DocWordsSpaceSpec.

Import DocWordsSpace.

(** *** The raw block *)

Lemma load_Some l pos x :
  load l pos = Some x ↔ 0 <= pos ∧ l !! Z.to_nat pos = Some x.
Proof. unfold load. destruct (decide (0 <= pos)); intuition discriminate. Qed.

Lemma load_in_block l pos :
  0 <= pos < Z.of_nat (length l) → is_Some (load l pos).
Proof.
  intros [Hlo Hhi]. unfold load. rewrite decide_True by done.
  apply lookup_lt_is_Some. lia.
Qed.

Lemma store_in_block l pos x :
  0 <= pos < Z.of_nat (length l) → store l pos x = Some (<[Z.to_nat pos := x]> l).
Proof. intros. unfold store. by rewrite decide_True. Qed.

Lemma store_Some l pos x l' :
  store l pos x = Some l' →
  0 <= pos < Z.of_nat (length l) ∧ l' = <[Z.to_nat pos := x]> l.
Proof. unfold store. destruct (decide _); intros [= <-]; done. Qed.

Lemma store_length l pos x l' : store l pos x = Some l' → length l' = length l.
Proof. intros [_ ->]%store_Some. apply length_insert. Qed.

Lemma load_store_eq l pos x l' : store l pos x = Some l' → load l' pos = Some x.
Proof.
  intros [[Hlo Hhi] ->]%store_Some. apply load_Some. split; [done|].
  apply list_lookup_insert_eq. lia.
Qed.

Lemma load_store_ne l pos x l' q :
  store l pos x = Some l' → q ≠ pos → load l' q = load l q.
Proof.
  intros [[Hlo Hhi] ->]%store_Some Hne. unfold load. case_decide; [|done].
  apply list_lookup_insert_ne. lia.
Qed.

Lemma memset0_Some l cnt l' :
  memset0 l cnt = Some l' →
  0 <= cnt <= Z.of_nat (length l) ∧
  l' = replicate (Z.to_nat cnt) zero_position ++ drop (Z.to_nat cnt) l.
Proof. unfold memset0. destruct (decide _); intros [= <-]; done. Qed.

Lemma memset0_length l cnt l' : memset0 l cnt = Some l' → length l' = length l.
Proof.
  intros [[Hlo Hhi] ->]%memset0_Some.
  rewrite length_app, length_replicate, length_drop. lia.
Qed.

Lemma memset0_lookup_lt l cnt l' i :
  memset0 l cnt = Some l' → Z.of_nat i < cnt → l' !! i = Some zero_position.
Proof.
  intros [[Hlo Hhi] ->]%memset0_Some Hi.
  rewrite lookup_app_l by (rewrite length_replicate; lia).
  apply lookup_replicate_2. lia.
Qed.

Lemma memset0_lookup_ge l cnt l' i :
  memset0 l cnt = Some l' → cnt <= Z.of_nat i → l' !! i = l !! i.
Proof.
  intros [[Hlo Hhi] ->]%memset0_Some Hi.
  rewrite lookup_app_r by (rewrite length_replicate; lia).
  rewrite length_replicate, lookup_drop. f_equal. lia.
Qed.

(** [test] in terms of the slot it reads. *)
Lemma test_slot tid pos s slot :
  load (positions s) pos = Some slot →
  test tid pos s =
    Some (bool_decide (docSeq slot = curSeq s) && bool_decide (termID slot = tid)).
Proof. intros H. unfold test. by rewrite H. Qed.

Lemma test_stale_slot tid pos s slot :
  load (positions s) pos = Some slot → docSeq slot ≠ curSeq s → test tid pos s = Some false.
Proof.
  intros H Hne. rewrite (test_slot _ _ _ _ H). by rewrite bool_decide_eq_false_2.
Qed.

Section Facts.

(** What is assumed of the two limits: the phrase size is not negative, and
    the largest slot count, [MaxPosition + 1 + MaxPhraseSize], fits the
    32-bit arithmetic of the constructor. *)
Variable MaxPosition MaxPhraseSize : Z.
Hypothesis MaxPhraseSize_nonneg : 0 <= MaxPhraseSize.
Hypothesis limits_fit : MaxPosition + 1 + MaxPhraseSize < 4294967296.

Local Abbreviation inv := (inv MaxPosition MaxPhraseSize).
Local Abbreviation reachable := (reachable MaxPosition MaxPhraseSize).
Local Abbreviation new := (new MaxPosition MaxPhraseSize).

(** *** The constructor *)

Lemma new_None max : max = 0 ∨ MaxPosition < max → new max = None.
Proof. intros H. unfold new, require. apply decide_False. lia. Qed.

Lemma new_ok max :
  0 < max <= MaxPosition →
  new max = Some (mkSpace (replicate (Z.to_nat (max + 1 + MaxPhraseSize)) zero_position) max 1).
Proof.
  intros H. unfold new, require. rewrite decide_True by lia.
  by rewrite wrap32_small by lia.
Qed.

Lemma new_Some max s :
  0 <= max → new max = Some s →
  0 < max <= MaxPosition ∧
  s = mkSpace (replicate (Z.to_nat (max + 1 + MaxPhraseSize)) zero_position) max 1.
Proof.
  intros Hmax Hnew. destruct (decide (0 < max <= MaxPosition)) as [Hin|Hout].
  - split; [done|]. rewrite (new_ok _ Hin) in Hnew. by injection Hnew.
  - rewrite new_None in Hnew by lia. discriminate.
Qed.

Lemma new_inv max s : 0 <= max → new max = Some s → inv s.
Proof.
  intros Hmax [Hin ->]%new_Some; [|done]. split; simpl.
  - done.
  - rewrite length_replicate. lia.
  - unfold UINT16_MAX. lia.
  - intros i p [-> _]%lookup_replicate. simpl. lia.
  - by intros i p [-> _]%lookup_replicate _.
Qed.

(** *** The invariant is kept *)

Lemma reset_incr s :
  inv s → curSeq s ≠ UINT16_MAX →
  reset s = Some (mkSpace (positions s) (maxPos s) (curSeq s + 1)).
Proof.
  intros Hinv Hne. unfold reset. rewrite decide_False by done.
  destruct (inv_seq _ _ _ Hinv) as [Hlo Hhi]. unfold UINT16_MAX in *.
  by rewrite wrap16_small by lia.
Qed.

Lemma reset_wrap s :
  inv s → curSeq s = UINT16_MAX →
  reset s = Some (mkSpace (replicate (Z.to_nat (maxPos s + 1)) zero_position
                             ++ drop (Z.to_nat (maxPos s + 1)) (positions s))
                          (maxPos s) 1).
Proof.
  intros Hinv Heq. unfold reset. rewrite decide_True by done.
  pose proof (inv_max _ _ _ Hinv) as Hmax. pose proof (inv_len _ _ _ Hinv) as Hlen.
  rewrite wrap32_small by lia. unfold memset0. by rewrite decide_True by lia.
Qed.

Lemma reset_inv s s' : inv s → reset s = Some s' → inv s'.
Proof.
  intros Hinv Hreset. destruct Hinv as [Hmax Hlen Hseq Hslots Hguard].
  pose proof (mkInv _ _ _ Hmax Hlen Hseq Hslots Hguard) as Hinv.
  destruct (decide (curSeq s = UINT16_MAX)) as [Heq|Hne].
  - rewrite (reset_wrap _ Hinv Heq) in Hreset. injection Hreset as <-.
    assert (Hms : memset0 (positions s) (maxPos s + 1) =
      Some (replicate (Z.to_nat (maxPos s + 1)) zero_position
              ++ drop (Z.to_nat (maxPos s + 1)) (positions s))).
    { unfold memset0. by rewrite decide_True by lia. }
    split; simpl.
    + done.
    + by rewrite (memset0_length _ _ _ Hms).
    + unfold UINT16_MAX. lia.
    + intros i p Hi. destruct (decide (Z.of_nat i < maxPos s + 1)) as [Hlt|Hge].
      * rewrite (memset0_lookup_lt _ _ _ _ Hms Hlt) in Hi. injection Hi as <-. simpl. lia.
      * rewrite (memset0_lookup_ge _ _ _ _ Hms) in Hi by lia.
        rewrite (Hguard i p Hi) by lia. simpl. lia.
    + intros i p Hi Hgt. rewrite (memset0_lookup_ge _ _ _ _ Hms) in Hi by lia. eauto.
  - rewrite (reset_incr _ Hinv Hne) in Hreset. injection Hreset as <-.
    split; simpl; [done|done|lia| |done].
    intros i p Hi. specialize (Hslots i p Hi). lia.
Qed.

Lemma store_inv s pos x l :
  inv s → 0 < pos <= maxPos s → 0 <= docSeq x <= curSeq s →
  store (positions s) pos x = Some l → inv (mkSpace l (maxPos s) (curSeq s)).
Proof.
  intros [Hmax Hlen Hseq Hslots Hguard] Hpos Hx Hst.
  pose proof (store_length _ _ _ _ Hst) as Hl.
  apply store_Some in Hst as [Hin ->].
  split; simpl; [done|by rewrite Hl|done| |].
  - intros i p Hi. destruct (decide (i = Z.to_nat pos)) as [->|Hne].
    + rewrite list_lookup_insert_eq in Hi by lia. by injection Hi as <-.
    + rewrite list_lookup_insert_ne in Hi by done. eauto.
  - intros i p Hi Hgt. rewrite list_lookup_insert_ne in Hi by lia. eauto.
Qed.

Lemma set_inv tid pos s s' :
  inv s → 0 < pos <= maxPos s → set tid pos s = Some s' → inv s'.
Proof.
  intros Hinv Hpos Hset. unfold set in Hset.
  destruct (store (positions s) pos _) as [l|] eqn:Hst; [|done].
  injection Hset as <-. eapply store_inv; [done..| |done]. simpl.
  pose proof (inv_seq _ _ _ Hinv). lia.
Qed.

Lemma unset_inv pos s s' :
  inv s → 0 < pos <= maxPos s → unset pos s = Some s' → inv s'.
Proof.
  intros Hinv Hpos Hun. unfold unset in Hun.
  destruct (load (positions s) pos) as [slot|]; [|done]. simpl in Hun.
  destruct (store (positions s) pos _) as [l|] eqn:Hst; [|done].
  injection Hun as <-. eapply store_inv; [done..| |done]. simpl.
  pose proof (inv_seq _ _ _ Hinv). lia.
Qed.

Lemma apply_op_inv o s s' :
  inv s → valid_op (maxPos s) o → apply_op o s = Some s' → inv s'.
Proof.
  destruct o; simpl; intros Hinv Hv Hop;
    eauto using reset_inv, set_inv, unset_inv.
Qed.

Lemma reachable_inv s : reachable s → inv s.
Proof.
  induction 1 as [max s Hmax Hnew | s o s' _ IH Hv Hop].
  - eapply new_inv; [|done]. lia.
  - by eapply apply_op_inv.
Qed.

(** *** Calls within the precondition never leave the block *)

Lemma inv_load s pos :
  inv s → 0 <= pos <= maxPos s + MaxPhraseSize → is_Some (load (positions s) pos).
Proof.
  intros Hinv Hpos. apply load_in_block. rewrite (inv_len _ _ _ Hinv). lia.
Qed.

Lemma apply_op_maxPos o s s' : apply_op o s = Some s' → maxPos s' = maxPos s.
Proof.
  destruct o; simpl.
  - unfold reset. destruct (decide _).
    + destruct (memset0 _ _); simpl; [|done]. by intros [= <-].
    + by intros [= <-].
  - unfold set. destruct (store _ _ _); simpl; [|done]. by intros [= <-].
  - unfold unset. destruct (load _ _); simpl; [|done].
    destruct (store _ _ _); simpl; [|done]. by intros [= <-].
Qed.

Lemma apply_op_total o s :
  inv s → valid_op (maxPos s) o → is_Some (apply_op o s).
Proof.
  intros Hinv Hv. pose proof (inv_len _ _ _ Hinv) as Hlen.
  destruct o as [|tid pos|pos]; simpl in *.
  - destruct (decide (curSeq s = UINT16_MAX)) as [Heq|Hne].
    + by rewrite reset_wrap.
    + by rewrite reset_incr.
  - unfold set. by rewrite store_in_block by lia.
  - unfold unset. destruct (inv_load s pos Hinv) as [slot ->]; [lia|]. simpl.
    by rewrite store_in_block by lia.
Qed.

Lemma run_total ops s :
  inv s → Forall (valid_op (maxPos s)) ops →
  ∃ s', run ops s = Some s' ∧ inv s' ∧ maxPos s' = maxPos s.
Proof.
  revert s. induction ops as [|o ops IH]; intros s Hinv Hv; simpl.
  - by exists s.
  - apply Forall_cons in Hv as [Ho Hops].
    destruct (apply_op_total o s Hinv Ho) as [s1 H1]. rewrite H1. simpl.
    pose proof (apply_op_maxPos _ _ _ H1) as Hmx.
    destruct (IH s1) as (s' & Hrun & Hinv' & Hmx').
    + by eapply apply_op_inv.
    + by rewrite Hmx.
    + exists s'. split_and!; [done|done|congruence].
Qed.

Lemma run_reachable ops s s' :
  reachable s → Forall (valid_op (maxPos s)) ops → run ops s = Some s' → reachable s'.
Proof.
  revert s. induction ops as [|o ops IH]; intros s Hr Hv; simpl.
  - by intros [= <-].
  - apply Forall_cons in Hv as [Ho Hops].
    destruct (apply_op o s) as [s1|] eqn:H1; simpl; [|done].
    apply IH; [by eapply reach_step|]. by rewrite (apply_op_maxPos _ _ _ H1).
Qed.

(** *** Stale slots *)

Lemma stale_test p s tid : stale p s → test tid p s = Some false.
Proof. intros (slot & Hl & Hne). by eapply test_stale_slot. Qed.

Lemma zero_slot_stale p s :
  inv s → load (positions s) p = Some zero_position → stale p s.
Proof.
  intros Hinv Hl. exists zero_position. split; [done|]. simpl.
  pose proof (inv_seq _ _ _ Hinv). lia.
Qed.

Lemma reset_stale s s' p :
  inv s → reset s = Some s' → 0 <= p <= maxPos s + MaxPhraseSize → stale p s'.
Proof.
  intros Hinv Hreset Hp. destruct (inv_load s p Hinv Hp) as [slot Hslot].
  apply load_Some in Hslot as [Hp0 Hslot].
  destruct (decide (curSeq s = UINT16_MAX)) as [Heq|Hne].
  - pose proof (reset_inv _ _ Hinv Hreset) as Hinv'.
    rewrite (reset_wrap _ Hinv Heq) in Hreset. injection Hreset as <-.
    apply zero_slot_stale; [done|]. simpl. apply load_Some. split; [done|].
    destruct (decide (p <= maxPos s)) as [Hle|Hgt].
    + rewrite lookup_app_l by (rewrite length_replicate; lia).
      apply lookup_replicate_2. lia.
    + rewrite lookup_app_r by (rewrite length_replicate; lia).
      rewrite length_replicate, lookup_drop.
      replace (Z.to_nat (maxPos s + 1) + (Z.to_nat p - Z.to_nat (maxPos s + 1)))%nat
        with (Z.to_nat p) by lia.
      rewrite Hslot. f_equal. eapply (inv_guard _ _ _ Hinv); [done|lia].
  - rewrite (reset_incr _ Hinv Hne) in Hreset. injection Hreset as <-.
    exists slot. simpl. split; [by apply load_Some|].
    pose proof (inv_slots _ _ _ Hinv _ _ Hslot). lia.
Qed.

Lemma apply_op_stale o s s' p :
  inv s → valid_op (maxPos s) o → not_set_at p o → stale p s →
  apply_op o s = Some s' → stale p s'.
Proof.
  intros Hinv Hv Hns (slot & Hslot & Hne) Hop.
  destruct o as [|tid pos|pos]; simpl in *.
  - eapply reset_stale; [done..|].
    apply load_Some in Hslot as [Hp0 Hslot%lookup_lt_Some].
    pose proof (inv_len _ _ _ Hinv). lia.
  - unfold set in Hop. destruct (store _ _ _) as [l|] eqn:Hst; simpl in Hop; [|done].
    injection Hop as <-. exists slot. simpl. split; [|done].
    by rewrite (load_store_ne _ _ _ _ p Hst).
  - unfold unset in Hop. destruct (load (positions s) pos) as [old|]; simpl in Hop; [|done].
    destruct (store _ _ _) as [l|] eqn:Hst; simpl in Hop; [|done].
    injection Hop as <-. destruct (decide (p = pos)) as [->|Hpp].
    + exists (mkPosition 0 (termID old)). simpl. split; [by eapply load_store_eq|].
      pose proof (inv_seq _ _ _ Hinv). lia.
    + exists slot. simpl. split; [|done]. by rewrite (load_store_ne _ _ _ _ p Hst).
Qed.

Lemma run_stale ops s p :
  inv s → Forall (valid_op (maxPos s)) ops → Forall (not_set_at p) ops → stale p s →
  ∃ s', run ops s = Some s' ∧ stale p s'.
Proof.
  revert s. induction ops as [|o ops IH]; intros s Hinv Hv Hns Hst; simpl.
  - by exists s.
  - apply Forall_cons in Hv as [Ho Hops]. apply Forall_cons in Hns as [Hn Hnops].
    destruct (apply_op_total o s Hinv Ho) as [s1 H1]. rewrite H1. simpl.
    apply IH.
    + by eapply apply_op_inv.
    + by rewrite (apply_op_maxPos _ _ _ H1).
    + done.
    + by eapply apply_op_stale.
Qed.

(** *** Writing a slot and reading it back *)

Lemma set_test s tid p :
  inv s → 0 < p <= maxPos s →
  ∃ s', set tid p s = Some s' ∧ test tid p s' = Some true ∧
        ∀ tid', tid' ≠ tid → test tid' p s' = Some false.
Proof.
  intros Hinv Hp. pose proof (inv_len _ _ _ Hinv) as Hlen.
  assert (Hst : store (positions s) p (mkPosition (curSeq s) tid) =
                Some (<[Z.to_nat p := mkPosition (curSeq s) tid]> (positions s)))
    by (apply store_in_block; lia).
  eexists. split; [unfold set; by rewrite Hst|].
  pose proof (load_store_eq _ _ _ _ Hst) as Hl. split.
  - unfold test. simpl. rewrite Hl. simpl. by rewrite !bool_decide_eq_true_2.
  - intros tid' Hne. unfold test. simpl. rewrite Hl. simpl.
    rewrite bool_decide_eq_true_2 by done. by rewrite bool_decide_eq_false_2.
Qed.

(** *** Repeated resets *)

Lemma reset_n_app a b s :
  reset_n (a + b) s = reset_n a s ≫= reset_n b.
Proof.
  revert s. induction a as [|a IH]; intros s; simpl; [done|].
  destruct (reset s) as [s1|]; simpl; [apply IH|done].
Qed.

Lemma reset_n_reachable k s s' :
  reachable s → reset_n k s = Some s' → reachable s'.
Proof.
  revert s. induction k as [|k IH]; intros s Hr; simpl.
  - by intros [= <-].
  - destruct (reset s) as [s1|] eqn:H1; simpl; [|done].
    apply IH. by apply (reach_step _ _ s OpReset s1).
Qed.

(** Below the last generation, [k] resets only count. *)
Lemma reset_n_incr k s :
  inv s → curSeq s + Z.of_nat k <= UINT16_MAX →
  reset_n k s = Some (mkSpace (positions s) (maxPos s) (curSeq s + Z.of_nat k)).
Proof.
  revert s. induction k as [|k IH]; intros s Hinv Hk; simpl.
  - destruct s. simpl. by rewrite Z.add_0_r.
  - assert (Hne : curSeq s ≠ UINT16_MAX) by lia.
    pose proof (reset_incr _ Hinv Hne) as Hr. rewrite Hr. simpl.
    rewrite IH; simpl.
    + do 2 f_equal. lia.
    + by eapply reset_inv.
    + lia.
Qed.

(** A full cycle of the generation counter: the counter is back where it
    was and the positions up to [maxPos] have been cleared on the way. *)
Lemma reset_n_cycle s :
  inv s →
  reset_n (Z.to_nat 65535) s =
    Some (mkSpace (replicate (Z.to_nat (maxPos s + 1)) zero_position
                     ++ drop (Z.to_nat (maxPos s + 1)) (positions s))
                  (maxPos s) (curSeq s)).
Proof.
  intros Hinv. pose proof (inv_seq _ _ _ Hinv) as Hseq. unfold UINT16_MAX in Hseq.
  replace (Z.to_nat 65535)
    with (Z.to_nat (65535 - curSeq s) + (1 + Z.to_nat (curSeq s - 1)))%nat by lia.
  rewrite reset_n_app, reset_n_incr by (unfold UINT16_MAX; done || lia). simpl.
  set (s1 := mkSpace (positions s) (maxPos s) _).
  assert (Hinv1 : inv s1).
  { destruct Hinv as [Hmax Hlen _ Hslots Hguard]. split; simpl; try done.
    - unfold UINT16_MAX. lia.
    - intros i p Hi. specialize (Hslots i p Hi). lia. }
  assert (Hlast : curSeq s1 = UINT16_MAX) by (unfold UINT16_MAX; simpl; lia).
  pose proof (reset_wrap _ Hinv1 Hlast) as Hr. rewrite Hr. simpl.
  rewrite reset_n_incr; simpl.
  - do 2 f_equal. lia.
  - apply (reset_inv s1); [exact Hinv1|exact Hr].
  - unfold UINT16_MAX. lia.
Qed.

Lemma reset_n_maxPos k s s' : reset_n k s = Some s' → maxPos s' = maxPos s.
Proof.
  revert s. induction k as [|k IH]; intros s; simpl.
  - by intros [= <-].
  - destruct (reset s) as [s1|] eqn:H1; simpl; [|done].
    intros Hk. rewrite (IH _ Hk). exact (apply_op_maxPos OpReset _ _ H1).
Qed.

Lemma reset_n_total k s : inv s → is_Some (reset_n k s).
Proof.
  revert s. induction k as [|k IH]; intros s Hinv; simpl; [done|].
  destruct (apply_op_total OpReset s Hinv I) as [s1 H1]. simpl in H1.
  rewrite H1. simpl. apply IH. by eapply reset_inv.
Qed.

(** After one reset or more, every slot of the block is stale. *)
Lemma reset_n_stale k s s' p :
  inv s → (0 < k)%nat → reset_n k s = Some s' →
  0 <= p <= maxPos s + MaxPhraseSize → stale p s'.
Proof.
  revert s. induction k as [|k IH]; intros s Hinv Hk; [lia|]. simpl.
  destruct (reset s) as [s1|] eqn:H1; simpl; [|done].
  destruct k as [|k].
  - simpl. intros [= <-] Hp. by eapply reset_stale.
  - intros Hrun Hp. apply (IH s1); [by eapply reset_inv|lia|done|].
    by rewrite (apply_op_maxPos OpReset _ _ H1).
Qed.

Lemma reset_keeps_guard s s' :
  inv s → reset s = Some s' →
  drop (Z.to_nat (maxPos s + 1)) (positions s') = drop (Z.to_nat (maxPos s + 1)) (positions s).
Proof.
  intros Hinv Hreset. destruct (decide (curSeq s = UINT16_MAX)) as [Heq|Hne].
  - rewrite (reset_wrap _ Hinv Heq) in Hreset. injection Hreset as <-. simpl.
    apply drop_app_length'. by rewrite length_replicate.
  - rewrite (reset_incr _ Hinv Hne) in Hreset. by injection Hreset as <-.
Qed.

Lemma guard_zero s g :
  inv s → maxPos s < g <= maxPos s + MaxPhraseSize →
  load (positions s) g = Some zero_position.
Proof.
  intros Hinv Hg. pose proof (inv_max _ _ _ Hinv) as Hmax.
  destruct (inv_load s g Hinv) as [slot Hslot]; [lia|].
  rewrite Hslot. f_equal. apply load_Some in Hslot as [Hg0 Hslot].
  apply (inv_guard _ _ _ Hinv (Z.to_nat g)); [done|lia].
Qed.

End Facts.

(** *** The operations on the small instance *)

Example set_test_example :
  (s ← set 7 2 example_space; test 7 2 s) = Some true ∧
  (s ← set 7 2 example_space; test 8 2 s) = Some false ∧
  (s ← set 7 2 example_space; test 7 1 s) = Some false.
Proof. by split_and!. Qed.

Example reset_example :
  (s ← run [OpSet 7 2; OpReset] example_space; test 7 2 s) = Some false ∧
  (s ← run [OpSet 7 2; OpUnset 2] example_space; test 7 2 s) = Some false ∧
  (s ← run [OpSet 7 2; OpUnset 2; OpSet 7 2] example_space; test 7 2 s) = Some true.
Proof. by split_and!. Qed.

(** A position set in generation 1 and then 65535 resets: the counter is 1
    again, and the position reads as unset because the clearing branch was
    taken on the way. *)
Example wraparound_example :
  (s ← set 7 2 example_space; s' ← reset_n (Z.to_nat 65535) s; Some (curSeq s', test 7 2 s'))
  = Some (1, Some false).
Proof. vm_compute. reflexivity. Qed.

(** Outside the block nothing is defined; inside it the guard slots can be
    written by a call that breaks the precondition on positions. *)
Example out_of_block_example :
  set 7 6 example_space = None ∧ test 7 6 example_space = None ∧
  (s ← set 7 4 example_space; test 7 4 s) = Some true.
Proof. by split_and!. Qed.

(** *** [reset] in any state with a block of the right size *)

Lemma reset_at_last_generation s :
  0 <= maxPos s + 1 < 4294967296 →
  maxPos s + 1 <= Z.of_nat (length (positions s)) →
  curSeq s = UINT16_MAX →
  reset s = Some (mkSpace (replicate (Z.to_nat (maxPos s + 1)) zero_position
                             ++ drop (Z.to_nat (maxPos s + 1)) (positions s))
                          (maxPos s) 1).
Proof.
  intros Hmax Hlen Heq. unfold reset. rewrite decide_True by done.
  rewrite wrap32_small by done. unfold memset0. by rewrite decide_True by lia.
Qed.

Lemma reset_below_last_generation s :
  0 <= curSeq s < UINT16_MAX →
  reset s = Some (mkSpace (positions s) (maxPos s) (curSeq s + 1)).
Proof.
  unfold UINT16_MAX. intros Hseq. unfold reset.
  rewrite decide_False by (unfold UINT16_MAX; lia).
  by rewrite wrap16_small by lia.
Qed.

(** *** The statements of the design document *)

Lemma example_space_reachable : reachable 8 2 example_space.
Proof. apply (reach_new 8 2 3); [lia|reflexivity]. Qed.

Lemma example_marked_reachable : reachable 8 2 example_marked.
Proof.
  apply (reach_step 8 2 example_space (OpSet 7 2));
    [exact example_space_reachable|simpl; lia|reflexivity].
Qed.

Lemma example_last_generation_reachable : reachable 8 2 example_last_generation.
Proof.
  apply (reset_n_reachable 8 2 (Z.to_nat 65534) example_marked);
    [exact example_marked_reachable|vm_compute; reflexivity].
Qed.

(** C2, round trip: in a reachable state, for a position [p] with
    [0 < p <= maxPos] and any term [tid], [set tid p] succeeds, right after it
    [test tid p] is true, and [test tid' p] is false for every other term. *)
Theorem set_then_test MaxPosition MaxPhraseSize s tid p :
  0 <= MaxPhraseSize → MaxPosition + 1 + MaxPhraseSize < 4294967296 →
  reachable MaxPosition MaxPhraseSize s → 0 < p <= maxPos s →
  ∃ s', set tid p s = Some s' ∧ test tid p s' = Some true ∧
        ∀ tid', tid' ≠ tid → test tid' p s' = Some false.
Proof.
  intros Hph Hfit Hr Hp. pose proof (reachable_inv _ _ Hph Hfit _ Hr) as Hinv.
  eapply set_test; eassumption.
Qed.

Lemma set_then_test_witness :
  ∃ s', set 7 2 example_space = Some s' ∧ test 7 2 s' = Some true ∧
        ∀ tid', tid' ≠ 7 → test tid' 2 s' = Some false.
Proof.
  apply (set_then_test 8 2); [lia|lia|exact example_space_reachable|simpl; lia].
Defined.

(** C3, reset clears all: in a reachable state a slot whose stored
    generation is not the current one tests false for every term, whatever
    term it stores; and after [reset()], for every position [p] with
    [0 < p <= maxPos], [test tid p] stays false for every term through any
    further calls (within the precondition) among which there is no
    [set] at [p]. *)
Theorem reset_clears_all MaxPosition MaxPhraseSize s p :
  0 <= MaxPhraseSize → MaxPosition + 1 + MaxPhraseSize < 4294967296 →
  reachable MaxPosition MaxPhraseSize s → 0 < p <= maxPos s →
  (∀ slot tid, load (positions s) p = Some slot → docSeq slot ≠ curSeq s →
     test tid p s = Some false) ∧
  ∃ s0, reset s = Some s0 ∧
    ∀ ops, Forall (valid_op (maxPos s)) ops → Forall (not_set_at p) ops →
      ∃ s1, run ops s0 = Some s1 ∧ ∀ tid, test tid p s1 = Some false.
Proof.
  intros Hph Hfit Hr Hp. pose proof (reachable_inv _ _ Hph Hfit _ Hr) as Hinv.
  split.
  - intros slot tid Hl Hne. by eapply test_stale_slot.
  - destruct (apply_op_total _ _ Hph Hfit OpReset s Hinv I) as [s0 H0]. simpl in H0.
    exists s0. split; [done|]. intros ops Hv Hns.
    destruct (run_stale _ _ Hph Hfit ops s0 p) as (s1 & Hrun & Hst).
    + eapply reset_inv; eassumption.
    + by rewrite (apply_op_maxPos OpReset _ _ H0).
    + done.
    + eapply reset_stale; try eassumption. lia.
    + exists s1. split; [done|]. intros tid. by apply stale_test.
Qed.

Lemma reset_clears_all_witness :
  test 7 2 example_marked = Some true ∧
  (∀ slot tid, load (positions example_marked) 2 = Some slot →
     docSeq slot ≠ curSeq example_marked → test tid 2 example_marked = Some false) ∧
  ∃ s0, reset example_marked = Some s0 ∧
    ∀ ops, Forall (valid_op (maxPos example_marked)) ops → Forall (not_set_at 2) ops →
      ∃ s1, run ops s0 = Some s1 ∧ ∀ tid, test tid 2 s1 = Some false.
Proof.
  split; [reflexivity|].
  apply (reset_clears_all 8 2 example_marked 2);
    [lia|lia|exact example_marked_reachable|simpl; lia].
Defined.

(** C4, generation wraparound.  In any state [s0] whose block has at least
    [maxPos + 1] slots, reachable or not and whatever its guard slots hold:
    when the counter is 65535, [reset()] zeroes the first [maxPos + 1] slots,
    leaves every slot after them as it is and sets the counter to 1; below
    65535 it adds one to the counter and writes no slot.  In a reachable state
    [s] the counter is never 0; 65535 calls of [reset()] in a row go through
    the clearing branch once and bring the counter back to its value; and
    after any number [k >= 1] of calls in a row, 65535 among them, the state
    is reachable, every position [0 < p <= maxPos] tests false for every
    term, and the round trip of [set] and [test] holds. *)
Theorem reset_generation MaxPosition MaxPhraseSize s s0 :
  0 <= MaxPhraseSize → MaxPosition + 1 + MaxPhraseSize < 4294967296 →
  reachable MaxPosition MaxPhraseSize s →
  0 <= maxPos s0 + 1 < 4294967296 →
  maxPos s0 + 1 <= Z.of_nat (length (positions s0)) →
  (curSeq s0 = UINT16_MAX →
     reset s0 = Some (mkSpace (replicate (Z.to_nat (maxPos s0 + 1)) zero_position
                                 ++ drop (Z.to_nat (maxPos s0 + 1)) (positions s0))
                              (maxPos s0) 1)) ∧
  (0 <= curSeq s0 < UINT16_MAX →
     reset s0 = Some (mkSpace (positions s0) (maxPos s0) (curSeq s0 + 1))) ∧
  curSeq s ≠ 0 ∧
  (curSeq s ≠ UINT16_MAX →
     reset s = Some (mkSpace (positions s) (maxPos s) (curSeq s + 1))) ∧
  (curSeq s = UINT16_MAX →
     reset s = Some (mkSpace (replicate (Z.to_nat (maxPos s + 1)) zero_position
                                ++ drop (Z.to_nat (maxPos s + 1)) (positions s))
                             (maxPos s) 1)) ∧
  reset_n (Z.to_nat 65535) s =
    Some (mkSpace (replicate (Z.to_nat (maxPos s + 1)) zero_position
                     ++ drop (Z.to_nat (maxPos s + 1)) (positions s))
                  (maxPos s) (curSeq s)) ∧
  ∀ k, (0 < k)%nat →
    ∃ s', reset_n k s = Some s' ∧
      reachable MaxPosition MaxPhraseSize s' ∧ curSeq s' ≠ 0 ∧
      (∀ tid p, 0 < p <= maxPos s → test tid p s' = Some false) ∧
      (∀ tid p, 0 < p <= maxPos s →
         ∃ s'', set tid p s' = Some s'' ∧ test tid p s'' = Some true ∧
                ∀ tid', tid' ≠ tid → test tid' p s'' = Some false).
Proof.
  intros Hph Hfit Hr Hmax0 Hlen0.
  pose proof (reachable_inv _ _ Hph Hfit _ Hr) as Hinv.
  pose proof (inv_seq _ _ _ Hinv) as Hseq.
  split_and!.
  - by apply reset_at_last_generation.
  - apply reset_below_last_generation.
  - lia.
  - intros Hne. eapply reset_incr; eassumption.
  - intros Heq. eapply reset_wrap; eassumption.
  - by apply (reset_n_cycle MaxPosition MaxPhraseSize).
  - intros k Hk.
    destruct (reset_n_total _ _ Hph Hfit k s Hinv) as [s' Hk'].
    pose proof (reset_n_reachable _ _ _ _ _ Hr Hk') as Hr'.
    pose proof (reachable_inv _ _ Hph Hfit _ Hr') as Hinv'.
    pose proof (reset_n_maxPos _ _ _ Hk') as Hmx.
    exists s'. split_and!; [done|done| | |].
    + pose proof (inv_seq _ _ _ Hinv'). lia.
    + intros tid p Hp. apply stale_test.
      apply (reset_n_stale _ _ Hph Hfit k s s' p Hinv Hk Hk'). lia.
    + intros tid p Hp. rewrite <- Hmx in Hp.
      exact (set_test _ _ Hph s' tid p Hinv' Hp).
Qed.

(** The clearing branch on a state whose guard slot 4 is written: slot 2 is
    cleared, slot 4 is not.  And in the reachable state of the last
    generation, where position 2 was set in generation 1. *)
Lemma reset_generation_witness :
  reset example_guard_written =
    Some (mkSpace [zero_position; zero_position; zero_position;
                   zero_position; mkPosition 65535 9; zero_position] 3 1) ∧
  reset example_marked =
    Some (mkSpace [zero_position; zero_position; mkPosition 1 7;
                   zero_position; zero_position; zero_position] 3 2) ∧
  curSeq example_last_generation ≠ 0 ∧
  reset example_last_generation = Some (mkSpace (replicate 6 zero_position) 3 1) ∧
  reset_n (Z.to_nat 65535) example_last_generation =
    Some (mkSpace (replicate 6 zero_position) 3 65535) ∧
  ∀ k, (0 < k)%nat →
    ∃ s', reset_n k example_last_generation = Some s' ∧
      reachable 8 2 s' ∧ curSeq s' ≠ 0 ∧
      (∀ tid p, 0 < p <= maxPos example_last_generation → test tid p s' = Some false) ∧
      (∀ tid p, 0 < p <= maxPos example_last_generation →
         ∃ s'', set tid p s' = Some s'' ∧ test tid p s'' = Some true ∧
                ∀ tid', tid' ≠ tid → test tid' p s'' = Some false).
Proof.
  destruct (reset_generation 8 2 example_last_generation example_guard_written)
    as (Hclear & _ & Hnz & _ & Hlast & Hcycle & Hany);
    [lia|lia|exact example_last_generation_reachable|simpl; lia|simpl; lia|].
  destruct (reset_generation 8 2 example_last_generation example_marked)
    as (_ & Hcount & _);
    [lia|lia|exact example_last_generation_reachable|simpl; lia|simpl; lia|].
  split_and!.
  - exact (Hclear eq_refl).
  - apply Hcount. unfold UINT16_MAX. simpl. lia.
  - exact Hnz.
  - exact (Hlast eq_refl).
  - exact Hcycle.
  - exact Hany.
Defined.

(** C5, construction: [new max] fails when [max] is 0 or above
    [MaxPosition]; otherwise it succeeds with [max + 1 + MaxPhraseSize] slots,
    all of them zero, so that every position tests false for every term, with
    [maxPos = max] and the generation counter at 1. *)
Theorem new_spec MaxPosition MaxPhraseSize max :
  0 <= MaxPhraseSize → MaxPosition + 1 + MaxPhraseSize < 4294967296 →
  (max = 0 ∨ MaxPosition < max → new MaxPosition MaxPhraseSize max = None) ∧
  (0 < max <= MaxPosition →
     ∃ s, new MaxPosition MaxPhraseSize max = Some s ∧
       Z.of_nat (length (positions s)) = max + 1 + MaxPhraseSize ∧
       Forall (eq zero_position) (positions s) ∧
       maxPos s = max ∧ curSeq s = 1 ∧
       ∀ tid pos, 0 <= pos < max + 1 + MaxPhraseSize → test tid pos s = Some false).
Proof.
  intros Hph Hfit. split.
  - apply new_None.
  - intros Hmax. eexists. split; [by apply new_ok|]. simpl.
    split_and!; [rewrite length_replicate; lia|apply Forall_replicate_eq|done|done|].
    intros tid pos Hpos. unfold test. simpl.
    assert (Hl : load (replicate (Z.to_nat (max + 1 + MaxPhraseSize)) zero_position) pos
                 = Some zero_position).
    { apply load_Some. split; [lia|]. apply lookup_replicate_2. lia. }
    by rewrite Hl.
Qed.

Lemma new_spec_witness :
  new 8 2 0 = None ∧ new 8 2 9 = None ∧
  ∃ s, new 8 2 3 = Some s ∧
    Z.of_nat (length (positions s)) = 3 + 1 + 2 ∧
    Forall (eq zero_position) (positions s) ∧
    maxPos s = 3 ∧ curSeq s = 1 ∧
    ∀ tid pos, 0 <= pos < 3 + 1 + 2 → test tid pos s = Some false.
Proof.
  destruct (new_spec 8 2 0) as [H0 _]; [lia|lia|].
  destruct (new_spec 8 2 9) as [H9 _]; [lia|lia|].
  destruct (new_spec 8 2 3) as [_ H3]; [lia|lia|].
  split_and!; [apply H0; lia|apply H9; lia|apply H3; lia].
Defined.

(** C6, unset is local: in a reachable state and for [0 < p <= maxPos],
    [unset p] succeeds and changes nothing but the generation of slot [p],
    which becomes 0 while the stored term stays; after it [test tid p] is
    false for every term, and stays false through further calls among which
    there is no [set] at [p]; and [test] at every other position answers as
    before. *)
Theorem unset_is_local MaxPosition MaxPhraseSize s p :
  0 <= MaxPhraseSize → MaxPosition + 1 + MaxPhraseSize < 4294967296 →
  reachable MaxPosition MaxPhraseSize s → 0 < p <= maxPos s →
  ∃ slot s', load (positions s) p = Some slot ∧ unset p s = Some s' ∧
    positions s' = <[Z.to_nat p := mkPosition 0 (termID slot)]> (positions s) ∧
    maxPos s' = maxPos s ∧ curSeq s' = curSeq s ∧
    (∀ tid, test tid p s' = Some false) ∧
    (∀ tid p', p' ≠ p → test tid p' s' = test tid p' s) ∧
    (∀ ops, Forall (valid_op (maxPos s)) ops → Forall (not_set_at p) ops →
       ∃ s1, run ops s' = Some s1 ∧ ∀ tid, test tid p s1 = Some false).
Proof.
  intros Hph Hfit Hr Hp. pose proof (reachable_inv _ _ Hph Hfit _ Hr) as Hinv.
  pose proof (inv_len _ _ _ Hinv) as Hlen.
  destruct (inv_load _ _ s p Hinv) as [slot Hslot]; [lia|].
  assert (Hst : store (positions s) p (mkPosition 0 (termID slot)) =
                Some (<[Z.to_nat p := mkPosition 0 (termID slot)]> (positions s)))
    by (apply store_in_block; lia).
  set (s' := mkSpace (<[Z.to_nat p := mkPosition 0 (termID slot)]> (positions s))
                     (maxPos s) (curSeq s)).
  assert (Hun : unset p s = Some s').
  { unfold unset. rewrite Hslot. simpl. by rewrite Hst. }
  assert (Hinv' : inv MaxPosition MaxPhraseSize s').
  { eapply unset_inv; eassumption. }
  assert (Hstale : stale p s').
  { exists (mkPosition 0 (termID slot)). split; [exact (load_store_eq _ _ _ _ Hst)|].
    simpl. pose proof (inv_seq _ _ _ Hinv). lia. }
  exists slot, s'. split_and!; try done.
  - intros tid. by apply stale_test.
  - intros tid p' Hne. unfold test. simpl. by rewrite (load_store_ne _ _ _ _ p' Hst).
  - intros ops Hv Hns.
    destruct (run_stale _ _ Hph Hfit ops s' p Hinv' Hv Hns Hstale) as (s1 & Hrun & Hs1).
    exists s1. split; [done|]. intros tid. by apply stale_test.
Qed.

Lemma unset_is_local_witness :
  test 7 2 example_marked = Some true ∧
  ∃ slot s', load (positions example_marked) 2 = Some slot ∧
    unset 2 example_marked = Some s' ∧
    positions s' = <[Z.to_nat 2 := mkPosition 0 (termID slot)]> (positions example_marked) ∧
    maxPos s' = maxPos example_marked ∧ curSeq s' = curSeq example_marked ∧
    (∀ tid, test tid 2 s' = Some false) ∧
    (∀ tid p', p' ≠ 2 → test tid p' s' = test tid p' example_marked) ∧
    (∀ ops, Forall (valid_op (maxPos example_marked)) ops → Forall (not_set_at 2) ops →
       ∃ s1, run ops s' = Some s1 ∧ ∀ tid, test tid 2 s1 = Some false).
Proof.
  split; [reflexivity|].
  apply (unset_is_local 8 2 example_marked 2);
    [lia|lia|exact example_marked_reachable|simpl; lia].
Defined.

(** C7, guard slots: take a constructed object and any sequence of [set],
    [unset] and [reset] calls whose positions satisfy [0 < pos <= maxPos].
    The sequence succeeds, and afterwards every guard slot, at offsets
    [maxPos + 1] to [maxPos + MaxPhraseSize], holds zero and tests false for
    every term; a further [reset()], the clearing one included, leaves the
    slots after the first [maxPos + 1] as they are. *)
Theorem guard_slots_stay_zero MaxPosition MaxPhraseSize max s0 ops :
  0 <= MaxPhraseSize → MaxPosition + 1 + MaxPhraseSize < 4294967296 →
  0 <= max < 4294967296 → new MaxPosition MaxPhraseSize max = Some s0 →
  Forall (valid_op max) ops →
  ∃ s, run ops s0 = Some s ∧ maxPos s = max ∧
    (∀ g, max < g <= max + MaxPhraseSize →
       load (positions s) g = Some zero_position ∧ ∀ tid, test tid g s = Some false) ∧
    ∃ s', reset s = Some s' ∧
      drop (Z.to_nat (max + 1)) (positions s') = drop (Z.to_nat (max + 1)) (positions s).
Proof.
  intros Hph Hfit Hmax Hnew Hv.
  assert (Hinv0 : inv MaxPosition MaxPhraseSize s0)
    by (apply (new_inv _ _ Hph Hfit max); [lia|done]).
  assert (Hmx0 : maxPos s0 = max).
  { destruct (new_Some _ _ Hph Hfit max s0) as [_ ->]; [lia|done|done]. }
  destruct (run_total _ _ Hph Hfit ops s0 Hinv0) as (s & Hrun & Hinv & Hmx).
  { by rewrite Hmx0. }
  rewrite Hmx0 in Hmx. exists s. split_and!; [done|done| |].
  - intros g Hg. rewrite <- Hmx in Hg.
    pose proof (guard_zero _ _ s g Hinv Hg) as Hz. split; [done|].
    intros tid. apply stale_test. eapply zero_slot_stale; eassumption.
  - destruct (apply_op_total _ _ Hph Hfit OpReset s Hinv I) as [s' Hs']. simpl in Hs'.
    exists s'. split; [done|]. rewrite <- Hmx. eapply reset_keeps_guard; eassumption.
Qed.

Lemma guard_slots_stay_zero_witness :
  ∃ s, run [OpSet 7 3; OpReset; OpUnset 3; OpSet 5 1] example_space = Some s ∧
    maxPos s = 3 ∧
    (∀ g, 3 < g <= 3 + 2 →
       load (positions s) g = Some zero_position ∧ ∀ tid, test tid g s = Some false) ∧
    ∃ s', reset s = Some s' ∧
      drop (Z.to_nat (3 + 1)) (positions s') = drop (Z.to_nat (3 + 1)) (positions s).
Proof.
  apply (guard_slots_stay_zero 8 2 3 example_space); [lia|lia|lia|reflexivity|].
  repeat constructor; simpl; lia.
Defined.

End DocWordsSpaceSpec.

(** ** Properties of the executors *)

Module ExecSpec.

Import Exec.

Lemma iter_kept {A} (g : A → A) (n : nat) (a : A) :
  (∀ x, g x = x) → Nat.iter n g a = a.
Proof. intros Hg. induction n as [|n IH]; simpl; [done|]. by rewrite IH. Qed.

Section Facts.

Context {query IndexSource masked_documents_registry IndexDocumentsFilter Arg T : Type}.
Variable exec_query_source :
  query → IndexSource → masked_documents_registry → T → option IndexDocumentsFilter → T.
Variable make_unique : Arg → T.
Variable forwarded : Arg → Arg.

Local Abbreviation run_source := (run_source exec_query_source make_unique forwarded).
Local Abbreviation source_filter := (source_filter exec_query_source make_unique).
Local Abbreviation filters_in_source_order :=
  (filters_in_source_order exec_query_source make_unique).
Local Abbreviation loop_arguments := (loop_arguments forwarded).
Local Abbreviation task_arguments := (task_arguments forwarded).
Local Abbreviation exec_query_loop :=
  (exec_query_loop exec_query_source make_unique forwarded).
Local Abbreviation spawn_loop := (spawn_loop exec_query_source make_unique forwarded).
Local Abbreviation exec_query := (exec_query exec_query_source make_unique forwarded).
Local Abbreviation exec_query_par :=
  (exec_query_par exec_query_source make_unique forwarded).

Implicit Types (q : query) (f : option IndexDocumentsFilter).
Implicit Types (c : IndexSourcesCollection IndexSource masked_documents_registry).
Implicit Types (args : Arg) (out : list T) (tr : list event) (turn : Z → nat).

Lemma run_source_lookup q c f args i source :
  sources c !! i = Some source →
  run_source q c f args (Z.of_nat i) =
    Some (source_filter q c f args (Z.of_nat i) source, forwarded args).
Proof.
  intros Hs. unfold Exec.run_source, source_at.
  rewrite decide_True by lia. by rewrite Nat2Z.id, Hs.
Qed.

Lemma loop_arguments_kept args i : (∀ a, forwarded a = a) → loop_arguments args i = args.
Proof. apply iter_kept. Qed.

Lemma task_arguments_kept turn args i :
  (∀ a, forwarded a = a) → task_arguments turn args i = args.
Proof. apply iter_kept. Qed.

(** The sequential loop, started at index [length seen] with the sources
    [rest] still to do and the arguments as [args]. *)
Lemma exec_query_loop_spec q c f rest :
  ∀ seen fuel args out tr,
    sources c = seen ++ rest →
    Z.of_nat (length (sources c)) < 4294967296 →
    (length rest < fuel)%nat →
    exec_query_loop fuel q c f args (Z.of_nat (length (sources c)))
      (Z.of_nat (length seen)) out tr =
    Some (out ++ imap (λ j, source_filter q c f (loop_arguments args j)
                              (Z.of_nat (length seen + j))) rest,
          tr ++ (EvInline <$> seqZ (Z.of_nat (length seen)) (Z.of_nat (length rest)))).
Proof.
  induction rest as [|source rest IH]; intros seen fuel args out tr Hsplit Hn Hfuel;
    (destruct fuel as [|fuel]; [simpl in Hfuel; lia|]); simpl.
  - rewrite decide_True by (rewrite Hsplit, length_app; simpl; lia).
    by rewrite !app_nil_r.
  - rewrite decide_False by (rewrite Hsplit, length_app; simpl; lia).
    assert (Hsrc : sources c !! length seen = Some source)
      by (rewrite Hsplit; apply list_lookup_middle; done).
    rewrite (run_source_lookup _ _ _ _ _ _ Hsrc). simpl.
    assert (Hlen : Z.of_nat (length seen) + 1 = Z.of_nat (length (seen ++ [source])))
      by (rewrite length_app; simpl; lia).
    rewrite wrap32_small
      by (rewrite Hsplit, length_app in Hn; simpl in Hn; lia).
    rewrite Hlen, (IH (seen ++ [source])).
    + rewrite <- !(assoc_L (++)). simpl. rewrite Nat.add_0_r.
      rewrite (seqZ_cons (Z.of_nat (length seen))) by lia. rewrite fmap_cons.
      rewrite <- Hlen.
      replace (Z.pred (Z.of_nat (S (length rest)))) with (Z.of_nat (length rest)) by lia.
      replace (Z.succ (Z.of_nat (length seen))) with (Z.of_nat (length seen) + 1) by lia.
      do 4 f_equal. apply imap_ext. intros j x _. simpl.
      replace (length (seen ++ [source]) + j)%nat with (length seen + S j)%nat
        by (rewrite length_app; simpl; lia).
      unfold Exec.loop_arguments. by rewrite <- Nat.iter_succ_r.
    + by rewrite <- (assoc_L (++)).
    + done.
    + simpl in Hfuel. lia.
Qed.

(** The spawning loop of the parallel executor, in the same way. *)
Lemma spawn_loop_spec turn q c f args rest :
  ∀ seen fuel (futures : list (@future T)) tr,
    sources c = seen ++ rest →
    Z.of_nat (length (sources c)) < 4294967296 →
    (length rest < fuel)%nat →
    spawn_loop fuel turn q c f args (Z.of_nat (length (sources c)))
      (Z.of_nat (length seen)) futures tr =
    Some (futures ++
            imap (λ j source,
                    mkFuture (Z.of_nat (length seen + j))
                      (source_filter q c f
                         (task_arguments turn args (Z.of_nat (length seen + j)))
                         (Z.of_nat (length seen + j)) source))
                 rest,
          tr ++ (EvSpawn <$> seqZ (Z.of_nat (length seen)) (Z.of_nat (length rest)))).
Proof.
  induction rest as [|source rest IH]; intros seen fuel futures tr Hsplit Hn Hfuel;
    (destruct fuel as [|fuel]; [simpl in Hfuel; lia|]); simpl.
  - rewrite decide_True by (rewrite Hsplit, length_app; simpl; lia).
    by rewrite !app_nil_r.
  - rewrite decide_False by (rewrite Hsplit, length_app; simpl; lia).
    assert (Hsrc : sources c !! length seen = Some source)
      by (rewrite Hsplit; apply list_lookup_middle; done).
    rewrite (run_source_lookup _ _ _ _ _ _ Hsrc). simpl.
    assert (Hlen : Z.of_nat (length seen) + 1 = Z.of_nat (length (seen ++ [source])))
      by (rewrite length_app; simpl; lia).
    rewrite wrap32_small
      by (rewrite Hsplit, length_app in Hn; simpl in Hn; lia).
    rewrite Hlen, (IH (seen ++ [source])).
    + rewrite <- !(assoc_L (++)). simpl. rewrite Nat.add_0_r.
      rewrite (seqZ_cons (Z.of_nat (length seen))) by lia. rewrite fmap_cons.
      rewrite <- Hlen.
      replace (Z.pred (Z.of_nat (S (length rest)))) with (Z.of_nat (length rest)) by lia.
      replace (Z.succ (Z.of_nat (length seen))) with (Z.of_nat (length seen) + 1) by lia.
      do 4 f_equal. apply imap_ext. intros j x _. simpl.
      replace (length (seen ++ [source]) + j)%nat with (length seen + S j)%nat
        by (rewrite length_app; simpl; lia).
      done.
    + by rewrite <- (assoc_L (++)).
    + done.
    + simpl in Hfuel. lia.
Qed.

(** The collecting loop takes the futures from the back. *)
Lemma collect_loop_spec (futures : list (@future T)) :
  ∀ fuel out tr,
    (length futures < fuel)%nat →
    collect_loop fuel futures out tr =
    Some (out ++ reverse (task_value <$> futures),
          tr ++ (EvGet <$> reverse (task_index <$> futures))).
Proof.
  induction futures as [|fu futures IH] using rev_ind; intros fuel out tr Hfuel;
    (destruct fuel as [|fuel]; [simpl in Hfuel; lia|]); simpl.
  - by rewrite !app_nil_r.
  - rewrite last_snoc, removelast_last.
    rewrite IH by (rewrite length_app in Hfuel; simpl in Hfuel; lia).
    rewrite !fmap_app. simpl. rewrite !reverse_snoc, fmap_cons.
    by rewrite <- !(assoc_L (++)).
Qed.

Lemma imap_index {A} (l : list A) :
  imap (λ j _, Z.of_nat j) l = seqZ 0 (Z.of_nat (length l)).
Proof.
  apply list_eq. intros i. rewrite list_lookup_imap.
  destruct (l !! i) as [x|] eqn:Hi; simpl.
  - apply lookup_lt_Some in Hi. by rewrite lookup_seqZ_lt by lia.
  - apply lookup_ge_None in Hi. by rewrite lookup_seqZ_ge by lia.
Qed.

Lemma filters_in_source_order_lookup q c f args i source :
  sources c !! i = Some source →
  filters_in_source_order q c f args !! i =
    Some (exec_query_source q source (scanner_registry_for c (Z.of_nat i))
            (make_unique args) f).
Proof.
  intros Hs. unfold Exec.filters_in_source_order.
  by rewrite list_lookup_imap, Hs.
Qed.

Lemma filters_in_source_order_length q c f args :
  length (filters_in_source_order q c f args) = length (sources c).
Proof. apply length_imap. Qed.

Lemma exec_query_eq fuel q c f args :
  Z.of_nat (length (sources c)) < 4294967296 →
  (length (sources c) < fuel)%nat →
  exec_query fuel q c f args =
    Some (imap (λ i, source_filter q c f (loop_arguments args i) (Z.of_nat i)) (sources c),
          EvInline <$> seqZ 0 (Z.of_nat (length (sources c)))).
Proof.
  intros Hn Hfuel. unfold Exec.exec_query.
  by rewrite (exec_query_loop_spec q c f (sources c) []).
Qed.

Lemma exec_query_par_eq turn fuel q c f args :
  1 < Z.of_nat (length (sources c)) < 4294967296 →
  (length (sources c) < fuel)%nat →
  exec_query_par turn fuel q c f args =
    Some (reverse (imap (λ i, source_filter q c f
                                (task_arguments turn args (Z.of_nat i)) (Z.of_nat i))
                        (sources c)),
          (EvSpawn <$> seqZ 0 (Z.of_nat (length (sources c))))
            ++ (EvGet <$> reverse (seqZ 0 (Z.of_nat (length (sources c)))))).
Proof.
  intros Hn Hfuel. unfold Exec.exec_query_par.
  rewrite decide_False by lia. rewrite decide_False by lia.
  rewrite (spawn_loop_spec turn q c f args (sources c) []) by (done || lia). simpl.
  rewrite collect_loop_spec by (by rewrite length_imap). simpl.
  rewrite !fmap_imap. do 3 f_equal. by rewrite <- imap_index.
Qed.

(** With arguments that a construction leaves as they are, both lists of
    filters are the one of the design document. *)
Lemma loop_filters_kept q c f args :
  (∀ a, forwarded a = a) →
  imap (λ i, source_filter q c f (loop_arguments args i) (Z.of_nat i)) (sources c)
  = filters_in_source_order q c f args.
Proof.
  intros Hkept. apply imap_ext. intros i x _. simpl. by rewrite loop_arguments_kept.
Qed.


(** *** The statements of the design document *)

(** C9, degenerate fan-out: over no sources both executors return the empty
    sequence and the calling thread does nothing, so no task is launched;
    over one source the parallel executor launches no task, runs the source
    inline and returns the one filter that the sequential executor
    returns. *)
Theorem degenerate_fan_out turn fuel q scanner f args source :
  exec_query (S fuel) q (mkCollection [] scanner) f args = Some ([], []) ∧
  exec_query_par turn fuel q (mkCollection [] scanner) f args = Some ([], []) ∧
  exec_query_par turn fuel q (mkCollection [source] scanner) f args =
    Some ([exec_query_source q source (scanner 0) (make_unique args) f], [EvInline 0]) ∧
  exec_query (S (S fuel)) q (mkCollection [source] scanner) f args =
    Some ([exec_query_source q source (scanner 0) (make_unique args) f], [EvInline 0]).
Proof.
  split_and!.
  - reflexivity.
  - reflexivity.
  - reflexivity.
  - reflexivity.
Qed.


End Facts.


(** C1, the two executors on the same two sources, with constructor
    arguments that a construction leaves as they are and whatever the order
    in which the tasks run: the sequential one returns the filter of source 0
    and then the filter of source 1, the parallel one returns them the other
    way round, so the element at index 0 of its output is not the filter of
    source 0. *)
Theorem exec_query_par_order_differs (turn : Z → nat) :
  exec_query example_exec_query example_make_unique example_copied 3 tt
    (example_collection [10; 20]) None [] =
    Some ([[10]; [120]], [EvInline 0; EvInline 1]) ∧
  exec_query_par example_exec_query example_make_unique example_copied turn 3 tt
    (example_collection [10; 20]) None [] =
    Some ([[120]; [10]], [EvSpawn 0; EvSpawn 1; EvGet 1; EvGet 0]) ∧
  [[120]; [10]] !! 0%nat ≠ [[10]; [120]] !! 0%nat.
Proof.
  split_and!; [reflexivity| |discriminate].
  rewrite exec_query_par_eq by (simpl; lia). simpl.
  by rewrite !(task_arguments_kept example_copied turn []).
Qed.

(** C8, the sequential executor on two sources with constructor arguments
    passed as rvalues: the loop forwards the same arguments in every
    iteration, so the filter of source 0 is constructed from the given
    arguments and the filter of source 1 from what the first construction
    left of them; element 1 of the output is not the filter that a run on a
    filter constructed from the given arguments leaves. *)
Theorem exec_query_forwards_in_loop :
  exec_query example_exec_query example_make_unique example_moved 3 tt
    (example_collection [10; 20]) None [7] =
    Some ([[7; 10]; [120]], [EvInline 0; EvInline 1]) ∧
  filters_in_source_order example_exec_query example_make_unique tt
    (example_collection [10; 20]) None [7] = [[7; 10]; [7; 120]] ∧
  [[7; 10]; [120]] !! 1%nat ≠
    Some (example_exec_query tt 20 (100 * 1) (example_make_unique [7]) None).
Proof. split_and!; [reflexivity|reflexivity|discriminate]. Qed.

End ExecSpec.

(** ** More properties of DocWordsSpace *)

Module DocWordsSpaceMore.

Import DocWordsSpace DocWordsSpaceSpec.

(** *** The operations in any state *)

Lemma set_inside s tid p :
  0 <= p < Z.of_nat (length (positions s)) →
  set tid p s =
    Some (mkSpace (<[Z.to_nat p := mkPosition (curSeq s) tid]> (positions s))
                  (maxPos s) (curSeq s)).
Proof. intros Hp. unfold set. by rewrite store_in_block. Qed.

Lemma set_outside s tid p :
  ¬ (0 <= p < Z.of_nat (length (positions s))) → set tid p s = None.
Proof. intros Hp. unfold set, store. by rewrite decide_False. Qed.

Lemma unset_inside s p :
  0 <= p < Z.of_nat (length (positions s)) →
  ∃ slot, positions s !! Z.to_nat p = Some slot ∧
    unset p s =
      Some (mkSpace (<[Z.to_nat p := mkPosition 0 (termID slot)]> (positions s))
                    (maxPos s) (curSeq s)).
Proof.
  intros Hp. destruct (load_in_block (positions s) p Hp) as [slot Hslot].
  exists slot. split; [by apply load_Some in Hslot as [_ ?]|].
  unfold unset. rewrite Hslot. simpl. by rewrite store_in_block.
Qed.

Lemma unset_outside s p :
  ¬ (0 <= p < Z.of_nat (length (positions s))) → unset p s = None.
Proof.
  intros Hp. unfold unset. destruct (load (positions s) p) as [slot|] eqn:Hl; [|done].
  simpl. unfold store. by rewrite decide_False.
Qed.

Lemma set_Some s tid p s' :
  set tid p s = Some s' →
  0 <= p < Z.of_nat (length (positions s)) ∧
  s' = mkSpace (<[Z.to_nat p := mkPosition (curSeq s) tid]> (positions s))
               (maxPos s) (curSeq s).
Proof.
  intros Hset. destruct (decide (0 <= p < Z.of_nat (length (positions s)))) as [Hin|Hout].
  - rewrite set_inside in Hset by done. by injection Hset as <-.
  - by rewrite set_outside in Hset.
Qed.

(** X, [set] is local: whenever [set tid p] is defined it keeps [maxPos], the
    generation counter and the size of the block, and [test] at every other
    position answers as before. *)
Theorem set_is_local s s' tid p :
  set tid p s = Some s' →
  maxPos s' = maxPos s ∧ curSeq s' = curSeq s ∧
  length (positions s') = length (positions s) ∧
  ∀ tid' q, q ≠ p → test tid' q s' = test tid' q s.
Proof.
  intros [Hin ->]%set_Some. simpl. split_and!; [done|done|apply length_insert|].
  intros tid' q Hne. unfold test. simpl.
  by rewrite (load_store_ne (positions s) p _ _ q (store_in_block _ _ _ Hin)).
Qed.

Lemma set_is_local_witness :
  maxPos (mkSpace (<[2%nat := mkPosition 1 7]> (positions example_space)) 3 1) = 3 ∧
  curSeq (mkSpace (<[2%nat := mkPosition 1 7]> (positions example_space)) 3 1) = 1 ∧
  length (positions (mkSpace (<[2%nat := mkPosition 1 7]> (positions example_space)) 3 1))
    = length (positions example_space) ∧
  ∀ tid' q, q ≠ 2 →
    test tid' q (mkSpace (<[2%nat := mkPosition 1 7]> (positions example_space)) 3 1)
      = test tid' q example_space.
Proof. apply (set_is_local example_space _ 7 2). reflexivity. Defined.

(** X, writes to one position absorb the earlier one: a [set] after a [set]
    or after an [unset] at the same position leaves the state the [set] alone
    leaves, and a second [unset] changes nothing; outside the block both sides
    are undefined. *)
Theorem last_write_wins s a b p :
  (set a p s ≫= set b p) = set b p s ∧
  (unset p s ≫= set b p) = set b p s ∧
  (unset p s ≫= unset p) = unset p s.
Proof.
  destruct (decide (0 <= p < Z.of_nat (length (positions s)))) as [Hin|Hout].
  - destruct (unset_inside s p Hin) as (slot & Hslot & Hun).
    rewrite Hun, !set_inside by done. simpl. split_and!.
    + rewrite set_inside by (simpl; by rewrite length_insert). simpl.
      by rewrite list_insert_insert_eq.
    + rewrite set_inside by (simpl; by rewrite length_insert). simpl.
      by rewrite list_insert_insert_eq.
    + set (s1 := mkSpace _ _ _).
      destruct (unset_inside s1 p) as (slot1 & Hslot1 & Hun1).
      { simpl. by rewrite length_insert. }
      rewrite Hun1. subst s1. simpl in *.
      rewrite list_lookup_insert_eq in Hslot1 by lia. injection Hslot1 as <-. simpl.
      by rewrite list_insert_insert_eq.
  - by rewrite !set_outside, !unset_outside by done.
Qed.

(** X, writes to different positions commute: two [set]s, a [set] and an
    [unset], or two [unset]s at positions [p ≠ q] give the same state, or are
    both undefined, in either order. *)
Theorem writes_commute s a b p q :
  p ≠ q →
  (set a p s ≫= set b q) = (set b q s ≫= set a p) ∧
  (set a p s ≫= unset q) = (unset q s ≫= set a p) ∧
  (unset p s ≫= unset q) = (unset q s ≫= unset p).
Proof.
  intros Hne.
  destruct (decide (0 <= p < Z.of_nat (length (positions s)))) as [Hp|Hp];
  destruct (decide (0 <= q < Z.of_nat (length (positions s)))) as [Hq|Hq].
  - destruct (unset_inside s p Hp) as (sp & Hsp & Hup).
    destruct (unset_inside s q Hq) as (sq & Hsq & Huq).
    rewrite Hup, Huq, !set_inside by done. simpl.
    assert (Hn : Z.to_nat p ≠ Z.to_nat q) by lia.
    split_and!.
    + rewrite !set_inside by (simpl; by rewrite length_insert). simpl.
      by rewrite list_insert_insert_ne.
    + rewrite set_inside by (simpl; by rewrite length_insert). simpl.
      set (s1 := mkSpace _ _ _).
      destruct (unset_inside s1 q) as (sq' & Hsq' & Huq').
      { simpl. by rewrite length_insert. }
      rewrite Huq'. subst s1. simpl in *.
      rewrite list_lookup_insert_ne in Hsq' by done.
      rewrite Hsq in Hsq'. injection Hsq' as <-.
      by rewrite list_insert_insert_ne.
    + set (s1 := mkSpace _ _ _). set (s2 := mkSpace (<[Z.to_nat q:=_]> _) _ _).
      destruct (unset_inside s1 q) as (sq' & Hsq' & Huq').
      { simpl. by rewrite length_insert. }
      destruct (unset_inside s2 p) as (sp' & Hsp' & Hup').
      { simpl. by rewrite length_insert. }
      rewrite Huq', Hup'. subst s1 s2. simpl in *.
      rewrite list_lookup_insert_ne in Hsq' by done.
      rewrite list_lookup_insert_ne in Hsp' by done.
      rewrite Hsq in Hsq'. injection Hsq' as <-.
      rewrite Hsp in Hsp'. injection Hsp' as <-.
      by rewrite list_insert_insert_ne.
  - destruct (unset_inside s p Hp) as (sp & Hsp & Hup).
    rewrite Hup, (set_outside s b q), (unset_outside s q), set_inside by done. simpl.
    rewrite set_outside, !unset_outside by (simpl; by rewrite length_insert).
    by split_and!.
  - destruct (unset_inside s q Hq) as (sq & Hsq & Huq).
    rewrite Huq, (set_outside s a p), (unset_outside s p), set_inside by done. simpl.
    rewrite !set_outside, ?unset_outside by (simpl; by rewrite length_insert).
    by split_and!.
  - rewrite !set_outside, !unset_outside by done. by split_and!.
Qed.

Lemma writes_commute_witness :
  (set 7 1 example_space ≫= set 8 2) = (set 8 2 example_space ≫= set 7 1) ∧
  (set 7 1 example_space ≫= unset 2) = (unset 2 example_space ≫= set 7 1) ∧
  (unset 1 example_space ≫= unset 2) = (unset 2 example_space ≫= unset 1).
Proof. apply (writes_commute example_space 7 8 1 2). lia. Defined.

(** *** What reachable states look like *)

(** X, the invariant of the object: in every reachable state [maxPos] is
    within the limit, the block has [maxPos + 1 + MaxPhraseSize] slots, the
    generation counter is between 1 and 65535, and no slot carries a
    generation above the counter. *)
Theorem reachable_invariant MaxPosition MaxPhraseSize s :
  0 <= MaxPhraseSize → MaxPosition + 1 + MaxPhraseSize < 4294967296 →
  reachable MaxPosition MaxPhraseSize s →
  0 < maxPos s <= MaxPosition ∧
  Z.of_nat (length (positions s)) = maxPos s + 1 + MaxPhraseSize ∧
  1 <= curSeq s <= 65535 ∧
  ∀ pos slot, load (positions s) pos = Some slot → 0 <= docSeq slot <= curSeq s.
Proof.
  intros Hph Hfit Hr.
  destruct (reachable_inv _ _ Hph Hfit _ Hr) as [Hmax Hlen Hseq Hslots _].
  refine (conj Hmax (conj Hlen (conj Hseq _))).
  intros pos slot [_ Hl]%load_Some. by eapply Hslots.
Qed.

Lemma reachable_invariant_witness :
  0 < maxPos example_space <= 8 ∧
  Z.of_nat (length (positions example_space)) = maxPos example_space + 1 + 2 ∧
  1 <= curSeq example_space <= 65535 ∧
  ∀ pos slot, load (positions example_space) pos = Some slot →
    0 <= docSeq slot <= curSeq example_space.
Proof.
  apply (reachable_invariant 8 2 example_space); [lia|lia|exact example_space_reachable].
Defined.

Lemma apply_op_slot_zero MaxPosition MaxPhraseSize o s s' :
  0 <= MaxPhraseSize → MaxPosition + 1 + MaxPhraseSize < 4294967296 →
  inv MaxPosition MaxPhraseSize s → valid_op (maxPos s) o →
  apply_op o s = Some s' →
  positions s !! 0%nat = Some zero_position → positions s' !! 0%nat = Some zero_position.
Proof.
  intros Hph Hfit Hinv Hv Hop H0. pose proof (inv_max _ _ _ Hinv) as Hmax.
  destruct o as [|tid pos|pos]; simpl in *.
  - destruct (decide (curSeq s = UINT16_MAX)) as [Heq|Hne].
    + rewrite (reset_wrap _ _ Hph Hfit _ Hinv Heq) in Hop. injection Hop as <-. simpl.
      rewrite lookup_app_l by (rewrite length_replicate; lia).
      apply lookup_replicate_2. lia.
    + rewrite (reset_incr _ _ _ Hinv Hne) in Hop. by injection Hop as <-.
  - apply set_Some in Hop as [Hin ->]. simpl.
    by rewrite list_lookup_insert_ne by lia.
  - unfold unset in Hop. destruct (load (positions s) pos) as [slot|]; [|done].
    simpl in Hop. destruct (store _ _ _) as [l|] eqn:Hst; [|done].
    injection Hop as <-. simpl. apply store_Some in Hst as [_ ->].
    by rewrite list_lookup_insert_ne by lia.
Qed.

(** X, offset 0 is never written: in every reachable state the slot at
    position 0 still holds what [calloc] left, and [test tid 0] is false for
    every term. *)
Theorem slot_zero_never_written MaxPosition MaxPhraseSize s :
  0 <= MaxPhraseSize → MaxPosition + 1 + MaxPhraseSize < 4294967296 →
  reachable MaxPosition MaxPhraseSize s →
  load (positions s) 0 = Some zero_position ∧ ∀ tid, test tid 0 s = Some false.
Proof.
  intros Hph Hfit Hr.
  assert (H0 : positions s !! 0%nat = Some zero_position).
  { induction Hr as [max s Hmax Hnew|s o s' Hr IH Hv Hop].
    - destruct (new_Some _ _ Hph Hfit max s) as [Hin ->]; [lia|done|]. simpl.
      apply lookup_replicate_2. lia.
    - eapply apply_op_slot_zero; try eassumption.
      by apply reachable_inv. }
  assert (Hl : load (positions s) 0 = Some zero_position) by (by apply load_Some).
  split; [done|]. intros tid. apply stale_test.
  eapply zero_slot_stale; [by eapply reachable_inv|done].
Qed.

Lemma slot_zero_never_written_witness :
  load (positions example_space) 0 = Some zero_position ∧
  ∀ tid, test tid 0 example_space = Some false.
Proof.
  apply (slot_zero_never_written 8 2 example_space);
    [lia|lia|exact example_space_reachable].
Defined.

(** *** The generation counter *)

Lemma generation_after_resets_inv MaxPosition MaxPhraseSize k :
  0 <= MaxPhraseSize → MaxPosition + 1 + MaxPhraseSize < 4294967296 →
  ∀ s, inv MaxPosition MaxPhraseSize s →
    ∃ s', reset_n k s = Some s' ∧
      curSeq s' = 1 + (curSeq s - 1 + Z.of_nat k) mod 65535.
Proof.
  intros Hph Hfit. induction k as [|k IH]; intros s Hinv.
  - exists s. split; [done|]. pose proof (inv_seq _ _ _ Hinv) as Hseq.
    unfold UINT16_MAX in Hseq. rewrite Z.add_0_r, Z.mod_small by lia. lia.
  - pose proof (inv_seq _ _ _ Hinv) as Hseq. unfold UINT16_MAX in Hseq.
    destruct (apply_op_total _ _ Hph Hfit OpReset s Hinv I) as [s1 H1]. simpl in H1.
    destruct (IH s1) as (s' & Hk & Hc); [by eapply reset_inv|].
    exists s'. split; [simpl; by rewrite H1|]. rewrite Hc.
    assert (Hc1 : curSeq s1 - 1 = curSeq s mod 65535).
    { destruct (decide (curSeq s = UINT16_MAX)) as [Heq|Hne].
      - rewrite (reset_wrap _ _ Hph Hfit _ Hinv Heq) in H1. injection H1 as <-. simpl.
        rewrite Heq. reflexivity.
      - rewrite (reset_incr _ _ _ Hinv Hne) in H1. injection H1 as <-. simpl.
        unfold UINT16_MAX in Hne. rewrite Z.mod_small by lia. lia. }
    rewrite Hc1, Zplus_mod_idemp_l. do 2 f_equal. lia.
Qed.

(** X, the generation counter has period 65535: [k] calls of [reset()] in a
    reachable state succeed and leave the counter at
    [1 + (curSeq - 1 + k) mod 65535]; [maxPos] stays, and while the counter
    does not pass 65535 no slot is written. *)
Theorem generation_after_resets MaxPosition MaxPhraseSize s k :
  0 <= MaxPhraseSize → MaxPosition + 1 + MaxPhraseSize < 4294967296 →
  reachable MaxPosition MaxPhraseSize s →
  ∃ s', reset_n k s = Some s' ∧
    curSeq s' = 1 + (curSeq s - 1 + Z.of_nat k) mod 65535 ∧
    maxPos s' = maxPos s ∧
    (curSeq s + Z.of_nat k <= 65535 → positions s' = positions s).
Proof.
  intros Hph Hfit Hr. pose proof (reachable_inv _ _ Hph Hfit _ Hr) as Hinv.
  destruct (generation_after_resets_inv _ _ k Hph Hfit s Hinv) as (s' & Hk & Hc).
  exists s'. split_and!; [done|done|by eapply reset_n_maxPos|].
  intros Hle.
  rewrite (reset_n_incr _ _ Hph Hfit k s Hinv) in Hk by (unfold UINT16_MAX; lia).
  by injection Hk as <-.
Qed.

Lemma generation_after_resets_witness :
  ∃ s', reset_n (Z.to_nat 70000) example_space = Some s' ∧
    curSeq s' = 1 + (curSeq example_space - 1 + Z.of_nat (Z.to_nat 70000)) mod 65535 ∧
    maxPos s' = maxPos example_space ∧
    (curSeq example_space + Z.of_nat (Z.to_nat 70000) <= 65535 →
       positions s' = positions example_space).
Proof.
  apply (generation_after_resets 8 2 example_space (Z.to_nat 70000));
    [lia|lia|exact example_space_reachable].
Defined.

(** *** A write outside the precondition *)

(** Counting up needs nothing of the block. *)
Lemma reset_count s :
  1 <= curSeq s < 65535 →
  reset s = Some (mkSpace (positions s) (maxPos s) (curSeq s + 1)).
Proof.
  intros Hseq. unfold reset. rewrite decide_False by (unfold UINT16_MAX; lia).
  by rewrite wrap16_small by lia.
Qed.

Lemma reset_n_count k :
  ∀ s, 1 <= curSeq s → curSeq s + Z.of_nat k <= 65535 →
    reset_n k s = Some (mkSpace (positions s) (maxPos s) (curSeq s + Z.of_nat k)).
Proof.
  induction k as [|k IH]; intros s Hlo Hhi; simpl.
  - destruct s. simpl. by rewrite Z.add_0_r.
  - rewrite reset_count by lia. simpl. rewrite IH by (simpl; lia). simpl.
    do 2 f_equal. lia.
Qed.

Lemma reset_last s :
  0 <= maxPos s + 1 < 4294967296 →
  maxPos s + 1 <= Z.of_nat (length (positions s)) →
  curSeq s = 65535 →
  reset s = Some (mkSpace (replicate (Z.to_nat (maxPos s + 1)) zero_position
                             ++ drop (Z.to_nat (maxPos s + 1)) (positions s))
                          (maxPos s) 1).
Proof.
  intros Hmax Hlen Heq. unfold reset. rewrite decide_True by done.
  rewrite wrap32_small by done. unfold memset0. by rewrite decide_True by lia.
Qed.

(** A full cycle of the counter in a state that need not satisfy the
    invariant of the guard slots. *)
Lemma reset_n_full_cycle s :
  0 <= maxPos s + 1 < 4294967296 →
  maxPos s + 1 <= Z.of_nat (length (positions s)) →
  1 <= curSeq s <= 65535 →
  reset_n (Z.to_nat 65535) s =
    Some (mkSpace (replicate (Z.to_nat (maxPos s + 1)) zero_position
                     ++ drop (Z.to_nat (maxPos s + 1)) (positions s))
                  (maxPos s) (curSeq s)).
Proof.
  intros Hmax Hlen Hseq.
  replace (Z.to_nat 65535)
    with (Z.to_nat (65535 - curSeq s) + (1 + Z.to_nat (curSeq s - 1)))%nat by lia.
  rewrite reset_n_app, reset_n_count by lia. simpl.
  rewrite reset_last by (simpl; lia). simpl.
  rewrite reset_n_count by (simpl; lia). simpl.
  do 2 f_equal. lia.
Qed.

Lemma cleared_lookup_above (l : list position) k i :
  (k <= i)%nat → (k <= length l)%nat →
  (replicate k zero_position ++ drop k l) !! i = l !! i.
Proof.
  intros Hi Hk. rewrite lookup_app_r by (rewrite length_replicate; lia).
  rewrite length_replicate, lookup_drop. f_equal. lia.
Qed.

(** X, a [set] in the guard region is not undone by the clearing [reset]:
    for a guard offset [g], which is inside the block, [set tid g] succeeds
    and [test tid g] is true; one [reset()] makes it false; but after 65535
    calls of [reset()], with no [set] among them, the counter is back at its
    value, the clearing has left the slot alone, and [test tid g] is true
    again. *)
Theorem guard_write_survives_wraparound MaxPosition MaxPhraseSize s tid g :
  0 <= MaxPhraseSize → MaxPosition + 1 + MaxPhraseSize < 4294967296 →
  reachable MaxPosition MaxPhraseSize s →
  maxPos s < g <= maxPos s + MaxPhraseSize →
  ∃ s1 s2 s3,
    set tid g s = Some s1 ∧ test tid g s1 = Some true ∧
    reset s1 = Some s2 ∧ test tid g s2 = Some false ∧
    reset_n (Z.to_nat 65535) s1 = Some s3 ∧ curSeq s3 = curSeq s ∧
    test tid g s3 = Some true.
Proof.
  intros Hph Hfit Hr Hg. destruct (reachable_inv _ _ Hph Hfit _ Hr) as [Hmax Hlen Hseq _ _].
  unfold UINT16_MAX in Hseq.
  set (l1 := <[Z.to_nat g := mkPosition (curSeq s) tid]> (positions s)).
  set (s1 := mkSpace l1 (maxPos s) (curSeq s)).
  assert (Hl1 : length l1 = length (positions s)) by apply length_insert.
  assert (Hg1 : l1 !! Z.to_nat g = Some (mkPosition (curSeq s) tid))
    by (apply list_lookup_insert_eq; lia).
  assert (Hcl : (replicate (Z.to_nat (maxPos s + 1)) zero_position
                   ++ drop (Z.to_nat (maxPos s + 1)) l1) !! Z.to_nat g
                = Some (mkPosition (curSeq s) tid)).
  { rewrite cleared_lookup_above by lia. exact Hg1. }
  assert (Hset : set tid g s = Some s1) by (apply set_inside; lia).
  assert (Hcyc : reset_n (Z.to_nat 65535) s1 =
                 Some (mkSpace (replicate (Z.to_nat (maxPos s + 1)) zero_position
                                  ++ drop (Z.to_nat (maxPos s + 1)) l1)
                               (maxPos s) (curSeq s))).
  { apply (reset_n_full_cycle s1); simpl; lia. }
  assert (Htrue : ∀ l, l !! Z.to_nat g = Some (mkPosition (curSeq s) tid) →
                       test tid g (mkSpace l (maxPos s) (curSeq s)) = Some true).
  { intros l Hl. unfold test, load. simpl. rewrite decide_True by lia.
    rewrite Hl. simpl. by rewrite !bool_decide_eq_true_2. }
  destruct (decide (curSeq s = 65535)) as [Heq|Hne].
  - eexists s1, _, _. split_and!; [done|by apply Htrue| | |exact Hcyc|done|by apply Htrue].
    + apply (reset_last s1); simpl; lia.
    + unfold test, load. simpl. rewrite decide_True by lia. rewrite Hcl. simpl.
      rewrite bool_decide_eq_false_2 by lia. done.
  - eexists s1, _, _. split_and!; [done|by apply Htrue| | |exact Hcyc|done|by apply Htrue].
    + apply (reset_count s1); simpl; lia.
    + unfold test, load. simpl. rewrite decide_True by lia. rewrite Hg1. simpl.
      rewrite bool_decide_eq_false_2 by lia. done.
Qed.

Lemma guard_write_survives_wraparound_witness :
  ∃ s1 s2 s3,
    set 7 4 example_space = Some s1 ∧ test 7 4 s1 = Some true ∧
    reset s1 = Some s2 ∧ test 7 4 s2 = Some false ∧
    reset_n (Z.to_nat 65535) s1 = Some s3 ∧ curSeq s3 = curSeq example_space ∧
    test 7 4 s3 = Some true.
Proof.
  apply (guard_write_survives_wraparound 8 2 example_space 7 4);
    [lia|lia|exact example_space_reachable|simpl; lia].
Defined.

(** *** The object and the table it stands for *)

Lemma represents_test s m tid pos slot :
  PositionTable.represents s m → load (positions s) pos = Some slot →
  test tid pos s = Some (bool_decide (m !! pos = Some tid)).
Proof.
  intros Hrep Hl. rewrite (test_slot _ _ _ _ Hl). f_equal.
  pose proof (Hrep pos slot Hl) as Hm.
  destruct (decide (docSeq slot = curSeq s)) as [Hd|Hd]; rewrite Hm.
  - rewrite (bool_decide_eq_true_2 _ Hd). simpl. apply bool_decide_ext.
    split; [by intros ->|by intros [= ->]].
  - by rewrite (bool_decide_eq_false_2 _ Hd).
Qed.

Lemma represents_step MaxPosition MaxPhraseSize o s s' m :
  0 <= MaxPhraseSize → MaxPosition + 1 + MaxPhraseSize < 4294967296 →
  inv MaxPosition MaxPhraseSize s → valid_op (maxPos s) o →
  PositionTable.represents s m → apply_op o s = Some s' →
  PositionTable.represents s' (PositionTable.apply_op o m).
Proof.
  intros Hph Hfit Hinv Hv Hrep Hop pos slot Hl.
  destruct o as [|tid p|p]; simpl in *.
  - assert (Hst : stale pos s').
    { eapply reset_stale; try eassumption.
      pose proof (apply_op_inv _ _ Hph Hfit OpReset s s' Hinv I Hop) as Hinv'.
      pose proof (inv_len _ _ _ Hinv') as Hlen'.
      pose proof (apply_op_maxPos OpReset _ _ Hop) as Hmx.
      apply load_Some in Hl as [Hp0 Hl%lookup_lt_Some]. lia. }
    destruct Hst as (slot' & Hl' & Hne). rewrite Hl in Hl'. injection Hl' as <-.
    by rewrite decide_False, lookup_empty.
  - apply set_Some in Hop as [Hin ->]. simpl in *.
    pose proof (store_in_block (positions s) p (mkPosition (curSeq s) tid) Hin) as Hst.
    destruct (decide (pos = p)) as [->|Hne].
    + rewrite (load_store_eq _ _ _ _ Hst) in Hl. injection Hl as <-. simpl.
      by rewrite decide_True, lookup_insert_eq.
    + rewrite (load_store_ne _ _ _ _ pos Hst Hne) in Hl.
      rewrite lookup_insert_ne by done. by apply Hrep.
  - unfold unset in Hop. destruct (load (positions s) p) as [old|]; [|done].
    simpl in Hop. destruct (store _ _ _) as [l|] eqn:Hst; [|done].
    injection Hop as <-. simpl in *.
    destruct (decide (pos = p)) as [->|Hne].
    + rewrite (load_store_eq _ _ _ _ Hst) in Hl. injection Hl as <-. simpl.
      pose proof (inv_seq _ _ _ Hinv).
      by rewrite decide_False, lookup_delete_eq by lia.
    + rewrite (load_store_ne _ _ _ _ pos Hst Hne) in Hl.
      rewrite lookup_delete_ne by done. by apply Hrep.
Qed.

Lemma represents_run MaxPosition MaxPhraseSize ops :
  0 <= MaxPhraseSize → MaxPosition + 1 + MaxPhraseSize < 4294967296 →
  ∀ s m, inv MaxPosition MaxPhraseSize s → Forall (valid_op (maxPos s)) ops →
    PositionTable.represents s m →
    ∃ s', run ops s = Some s' ∧ inv MaxPosition MaxPhraseSize s' ∧
      maxPos s' = maxPos s ∧ PositionTable.represents s' (PositionTable.run ops m).
Proof.
  intros Hph Hfit. induction ops as [|o ops IH]; intros s m Hinv Hv Hrep; simpl.
  - by exists s.
  - apply Forall_cons in Hv as [Ho Hops].
    destruct (apply_op_total _ _ Hph Hfit o s Hinv Ho) as [s1 H1]. rewrite H1. simpl.
    pose proof (apply_op_maxPos _ _ _ H1) as Hmx.
    destruct (IH s1 (PositionTable.apply_op o m)) as (s' & Hrun & Hinv' & Hmx' & Hrep').
    + eapply apply_op_inv; eassumption.
    + by rewrite Hmx.
    + eapply represents_step; eassumption.
    + exists s'. split_and!; [done|done|congruence|done].
Qed.

(** X, the generation counter is not observable: take a constructed object
    and any sequence of [reset], [set] and [unset] calls whose positions
    satisfy [0 < pos <= maxPos].  The calls succeed, and [test tid pos], at
    every offset of the block, answers whether the table that is emptied by
    [reset], extended by [set] and reduced by [unset] has [tid] at [pos]. *)
Theorem tracker_refines_table MaxPosition MaxPhraseSize max s0 ops :
  0 <= MaxPhraseSize → MaxPosition + 1 + MaxPhraseSize < 4294967296 →
  0 <= max < 4294967296 → new MaxPosition MaxPhraseSize max = Some s0 →
  Forall (valid_op max) ops →
  ∃ s, run ops s0 = Some s ∧
    ∀ tid pos, 0 <= pos <= max + MaxPhraseSize →
      test tid pos s = Some (bool_decide (PositionTable.run ops ∅ !! pos = Some tid)).
Proof.
  intros Hph Hfit Hmax Hnew Hv.
  assert (Hinv0 : inv MaxPosition MaxPhraseSize s0)
    by (apply (new_inv _ _ Hph Hfit max); [lia|done]).
  destruct (new_Some _ _ Hph Hfit max s0) as [Hin Hs0]; [lia|done|].
  assert (Hmx0 : maxPos s0 = max) by (by rewrite Hs0).
  assert (Hrep0 : PositionTable.represents s0 ∅).
  { intros pos slot Hl. rewrite Hs0 in Hl. simpl in Hl.
    apply load_Some in Hl as [_ [-> _]%lookup_replicate]. by rewrite Hs0. }
  destruct (represents_run _ _ ops Hph Hfit s0 ∅ Hinv0) as (s & Hrun & Hinv & Hmx & Hrep);
    [by rewrite Hmx0|done|].
  exists s. split; [done|]. intros tid pos Hpos.
  destruct (inv_load _ _ s pos Hinv) as [slot Hslot]; [rewrite Hmx, Hmx0; lia|].
  by eapply represents_test.
Qed.

Lemma tracker_refines_table_witness :
  ∃ s, run [OpSet 7 3; OpReset; OpSet 5 1; OpSet 6 2; OpUnset 1] example_space = Some s ∧
    ∀ tid pos, 0 <= pos <= 3 + 2 →
      test tid pos s =
        Some (bool_decide
                (PositionTable.run [OpSet 7 3; OpReset; OpSet 5 1; OpSet 6 2; OpUnset 1] ∅
                   !! pos = Some tid)).
Proof.
  apply (tracker_refines_table 8 2 3 example_space); [lia|lia|lia|reflexivity|].
  repeat constructor; simpl; lia.
Defined.

(** *** The alternative [test] *)

Lemma lor_shiftl_16 a b :
  0 <= a < 65536 → 0 <= b → Z.lor a (Z.shiftl b 16) = a + 65536 * b.
Proof.
  intros Ha Hb.
  assert (Hland : Z.land a (Z.shiftl b 16) = 0).
  { apply Z.bits_inj'. intros n Hn. rewrite Z.land_spec, Z.bits_0.
    destruct (Z.lt_ge_cases n 16) as [Hlt|Hge].
    - rewrite Z.shiftl_spec_low by done. apply andb_false_r.
    - assert (Hbit : Z.testbit a n = false).
      { apply Z.testbit_false; [done|]. rewrite Z.div_small; [done|].
        split; [lia|]. apply Z.lt_le_trans with (2 ^ 16); [lia|].
        apply Z.pow_le_mono_r; lia. }
      by rewrite Hbit. }
  rewrite <- (Z.lxor_lor _ _ Hland), <- (Z.add_nocarry_lxor _ _ Hland).
  rewrite Z.shiftl_mul_pow2 by lia. lia.
Qed.

(** On one slot with 16-bit fields. *)
Lemma test_alt_slot s tid pos :
  DocWordsSpaceAlt.is_u16 tid → DocWordsSpaceAlt.is_u16 (curSeq s) →
  (∀ slot, load (positions s) pos = Some slot →
     DocWordsSpaceAlt.is_u16 (docSeq slot) ∧ DocWordsSpaceAlt.is_u16 (termID slot)) →
  DocWordsSpaceAlt.test_alt tid pos s = test tid pos s.
Proof.
  unfold DocWordsSpaceAlt.is_u16. intros Htid Hcur Hslot.
  unfold DocWordsSpaceAlt.test_alt, test.
  destruct (load (positions s) pos) as [slot|]; [|done]. simpl. f_equal.
  destruct (Hslot slot eq_refl) as [Hd Ht].
  unfold DocWordsSpaceAlt.word_of_position.
  rewrite Z.shiftl_mul_pow2 by lia. rewrite wrap32_small by lia.
  rewrite <- Z.shiftl_mul_pow2 by lia.
  rewrite Z.lor_comm, !lor_shiftl_16 by lia.
  destruct (decide (docSeq slot = curSeq s)) as [Hds|Hds];
    destruct (decide (termID slot = tid)) as [Hts|Hts].
  - rewrite !bool_decide_eq_true_2; [done|done|done|]. rewrite Hds, Hts. done.
  - rewrite (bool_decide_eq_false_2 (termID slot = tid)) by done.
    rewrite andb_false_r. apply bool_decide_eq_false_2. lia.
  - rewrite (bool_decide_eq_false_2 (docSeq slot = curSeq s)) by done.
    apply bool_decide_eq_false_2. lia.
  - rewrite (bool_decide_eq_false_2 (docSeq slot = curSeq s)) by done.
    apply bool_decide_eq_false_2. lia.
Qed.

(** Calls with 16-bit terms keep 16-bit terms in the block. *)
Lemma apply_op_terms_u16 o s s' :
  DocWordsSpaceAlt.u16_op o → apply_op o s = Some s' →
  Forall (λ slot, DocWordsSpaceAlt.is_u16 (termID slot)) (positions s) →
  Forall (λ slot, DocWordsSpaceAlt.is_u16 (termID slot)) (positions s').
Proof.
  intros Hu Hop Hall. destruct o as [|tid p|p]; simpl in *.
  - unfold reset in Hop. destruct (decide (curSeq s = UINT16_MAX)).
    + destruct (memset0 _ _) as [l|] eqn:Hms; simpl in Hop; [|done].
      injection Hop as <-. simpl. apply memset0_Some in Hms as [_ ->].
      apply Forall_app. split; [|by apply Forall_drop].
      apply Forall_replicate. unfold DocWordsSpaceAlt.is_u16. simpl. lia.
    + by injection Hop as <-.
  - apply set_Some in Hop as [_ ->]. simpl. by apply Forall_insert.
  - unfold unset in Hop. destruct (load (positions s) p) as [old|] eqn:Hold; [|done].
    simpl in Hop. destruct (store _ _ _) as [l|] eqn:Hst; [|done].
    injection Hop as <-. simpl. apply store_Some in Hst as [_ ->].
    apply Forall_insert; [done|]. simpl.
    apply load_Some in Hold as [_ Hold]. exact (Forall_lookup_1 _ _ _ _ Hall Hold).
Qed.

Lemma run_terms_u16 ops :
  ∀ s s', Forall DocWordsSpaceAlt.u16_op ops → run ops s = Some s' →
    Forall (λ slot, DocWordsSpaceAlt.is_u16 (termID slot)) (positions s) →
    Forall (λ slot, DocWordsSpaceAlt.is_u16 (termID slot)) (positions s').
Proof.
  induction ops as [|o ops IH]; intros s s' Hu Hrun Hall; simpl in Hrun.
  - by injection Hrun as <-.
  - apply Forall_cons in Hu as [Ho Hops].
    destruct (apply_op o s) as [s1|] eqn:H1; simpl in Hrun; [|done].
    eapply IH; [done|done|]. by eapply apply_op_terms_u16.
Qed.

(** X, the two versions of [test] agree: after construction and any calls
    within the precondition on positions that pass 16-bit terms, the
    alternative [test], which compares the word [(termID << 16) | curSeq] with
    the slot read as one little-endian word, answers what [test] answers, for
    every 16-bit term and every position (outside the block both are
    undefined). *)
Theorem test_alt_agrees MaxPosition MaxPhraseSize max s0 ops tid pos :
  0 <= MaxPhraseSize → MaxPosition + 1 + MaxPhraseSize < 4294967296 →
  0 <= max < 4294967296 → new MaxPosition MaxPhraseSize max = Some s0 →
  Forall (valid_op max) ops → Forall DocWordsSpaceAlt.u16_op ops →
  DocWordsSpaceAlt.is_u16 tid →
  ∃ s, run ops s0 = Some s ∧ DocWordsSpaceAlt.test_alt tid pos s = test tid pos s.
Proof.
  intros Hph Hfit Hmax Hnew Hv Hu Htid.
  assert (Hinv0 : inv MaxPosition MaxPhraseSize s0)
    by (apply (new_inv _ _ Hph Hfit max); [lia|done]).
  destruct (new_Some _ _ Hph Hfit max s0) as [Hin Hs0]; [lia|done|].
  destruct (run_total _ _ Hph Hfit ops s0 Hinv0) as (s & Hrun & Hinv & Hmx).
  { by rewrite Hs0. }
  exists s. split; [done|].
  assert (Hall : Forall (λ slot, DocWordsSpaceAlt.is_u16 (termID slot)) (positions s)).
  { eapply run_terms_u16; [exact Hu|exact Hrun|]. rewrite Hs0. simpl.
    apply Forall_replicate. unfold DocWordsSpaceAlt.is_u16. simpl. lia. }
  pose proof (inv_seq _ _ _ Hinv) as Hseq. unfold UINT16_MAX in Hseq.
  apply test_alt_slot; [done|unfold DocWordsSpaceAlt.is_u16; lia|].
  intros slot [_ Hslot]%load_Some. split.
  - pose proof (inv_slots _ _ _ Hinv _ _ Hslot). unfold DocWordsSpaceAlt.is_u16. lia.
  - exact (Forall_lookup_1 _ _ _ _ Hall Hslot).
Qed.

Lemma test_alt_agrees_witness :
  ∃ s, run [OpSet 7 3; OpReset; OpSet 5 1; OpUnset 1; OpSet 7 2] example_space = Some s ∧
    DocWordsSpaceAlt.test_alt 7 2 s = test 7 2 s.
Proof.
  apply (test_alt_agrees 8 2 3 example_space); [lia|lia|lia|reflexivity| | |].
  - repeat constructor; simpl; lia.
  - repeat constructor; unfold DocWordsSpaceAlt.is_u16; lia.
  - unfold DocWordsSpaceAlt.is_u16. lia.
Defined.

End DocWordsSpaceMore.

(** ** More properties of the executors *)

Module ExecMore.

Import Exec ExecSpec.

Section Facts.

Context {query IndexSource masked_documents_registry IndexDocumentsFilter Arg T : Type}.
Variable exec_query_source :
  query → IndexSource → masked_documents_registry → T → option IndexDocumentsFilter → T.
Variable make_unique : Arg → T.
Variable forwarded : Arg → Arg.

Local Abbreviation run_source := (run_source exec_query_source make_unique forwarded).
Local Abbreviation filters_in_source_order :=
  (filters_in_source_order exec_query_source make_unique).
Local Abbreviation loop_arguments := (loop_arguments forwarded).
Local Abbreviation task_arguments := (task_arguments forwarded).
Local Abbreviation exec_query_loop :=
  (exec_query_loop exec_query_source make_unique forwarded).
Local Abbreviation spawn_loop := (spawn_loop exec_query_source make_unique forwarded).
Local Abbreviation exec_query := (exec_query exec_query_source make_unique forwarded).
Local Abbreviation exec_query_par :=
  (exec_query_par exec_query_source make_unique forwarded).

Implicit Types (q : query) (f : option IndexDocumentsFilter).
Implicit Types (c : IndexSourcesCollection IndexSource masked_documents_registry).
Implicit Types (args : Arg) (out : list T) (tr : list event) (turn : Z → nat).

(** X, the sequential executor as written: with fewer than 2^32 sources and
    enough fuel, [exec_query] over a collection returns; the calling thread
    has run the single-source [exec_query] inline for the indices [0 .. n-1]
    in ascending order and nothing else; the output has one filter per
    source, in source order; its element [i] is what the run for
    [sources[i]] with [scanner_registry_for(i)] leaves in a filter
    constructed from the arguments as [i] earlier constructions left them.
    With arguments that a construction leaves as they are, the output is the
    list the design document asks for. *)
Theorem exec_query_filters fuel q c f args :
  Z.of_nat (length (sources c)) < 4294967296 →
  (length (sources c) < fuel)%nat →
  ∃ out,
    exec_query fuel q c f args =
      Some (out, EvInline <$> seqZ 0 (Z.of_nat (length (sources c)))) ∧
    length out = length (sources c) ∧
    (∀ i source, sources c !! i = Some source →
       out !! i = Some (exec_query_source q source (scanner_registry_for c (Z.of_nat i))
                          (make_unique (loop_arguments args i)) f)) ∧
    ((∀ a, forwarded a = a) → out = filters_in_source_order q c f args).
Proof.
  intros Hn Hfuel. eexists. split; [by apply exec_query_eq|]. split_and!.
  - apply length_imap.
  - intros i source Hs. by rewrite list_lookup_imap, Hs.
  - intros Hkept. by apply loop_filters_kept.
Qed.


(** The index of the loops is a [uint32_t] and never reaches a size of 2^32
    or more. *)
Lemma exec_query_loop_diverges q c f n fuel :
  4294967296 <= n →
  ∀ args i out tr, 0 <= i < 4294967296 →
    exec_query_loop fuel q c f args n i out tr = None.
Proof.
  intros Hn. induction fuel as [|fuel IH]; intros args i out tr Hi; simpl; [done|].
  rewrite decide_False by lia.
  destruct (run_source _ _ _ _ _) as [[x args']|]; simpl; [|done].
  apply IH. unfold wrap32. apply Z.mod_pos_bound. lia.
Qed.

Lemma spawn_loop_diverges turn q c f args n fuel :
  4294967296 <= n →
  ∀ i (futures : list (@future T)) tr, 0 <= i < 4294967296 →
    spawn_loop fuel turn q c f args n i futures tr = None.
Proof.
  intros Hn. induction fuel as [|fuel IH]; intros i futures tr Hi; simpl; [done|].
  rewrite decide_False by lia.
  destruct (run_source _ _ _ _ _) as [[x args']|]; simpl; [|done].
  apply IH. unfold wrap32. apply Z.mod_pos_bound. lia.
Qed.

(** X, 2^32 sources or more: the loop index, a [uint32_t], wraps before it
    can equal the number of sources, so neither executor returns, whatever
    the fuel. *)
Theorem executors_need_less_than_2_32_sources turn fuel q c f args :
  4294967296 <= Z.of_nat (length (sources c)) →
  exec_query fuel q c f args = None ∧ exec_query_par turn fuel q c f args = None.
Proof.
  intros Hn. split.
  - unfold Exec.exec_query. by apply exec_query_loop_diverges.
  - unfold Exec.exec_query_par. rewrite !decide_False by lia.
    by rewrite spawn_loop_diverges.
Qed.

End Facts.

(** With arguments passed as rvalues; and with arguments that are copied. *)
Lemma exec_query_filters_witness :
  (∃ out,
    exec_query example_exec_query example_make_unique example_moved 4 tt
      (example_collection [10; 20; 30]) None [7] =
      Some (out, EvInline <$> seqZ 0 (Z.of_nat (length [10; 20; 30]))) ∧
    length out = length [10; 20; 30] ∧
    (∀ i source, [10; 20; 30] !! i = Some source →
       out !! i = Some (example_exec_query tt source (100 * Z.of_nat i)
                          (example_make_unique (loop_arguments example_moved [7] i))
                          None))) ∧
  (∃ out,
    exec_query example_exec_query example_make_unique example_copied 4 tt
      (example_collection [10; 20; 30]) None [7] =
      Some (out, EvInline <$> seqZ 0 (Z.of_nat (length [10; 20; 30]))) ∧
    out = filters_in_source_order example_exec_query example_make_unique tt
            (example_collection [10; 20; 30]) None [7]).
Proof.
  destruct (exec_query_filters example_exec_query example_make_unique example_moved 4 tt
              (example_collection [10; 20; 30]) None [7])
    as (out1 & Hrun1 & Hlen1 & Hat1 & _); [simpl; lia|simpl; lia|].
  destruct (exec_query_filters example_exec_query example_make_unique example_copied 4 tt
              (example_collection [10; 20; 30]) None [7])
    as (out2 & Hrun2 & _ & _ & Hkept2); [simpl; lia|simpl; lia|].
  split.
  - exists out1. split_and!; [exact Hrun1|exact Hlen1|exact Hat1].
  - exists out2. split; [exact Hrun2|]. apply Hkept2. reflexivity.
Defined.


Lemma executors_need_less_than_2_32_sources_witness :
  exec_query example_exec_query example_make_unique example_copied 5 tt
    (example_collection (replicate (Z.to_nat 4294967296) 0)) None [] = None ∧
  exec_query_par example_exec_query example_make_unique example_copied example_turn 5 tt
    (example_collection (replicate (Z.to_nat 4294967296) 0)) None [] = None.
Proof.
  apply (executors_need_less_than_2_32_sources example_exec_query example_make_unique
           example_copied example_turn 5 tt
           (example_collection (replicate (Z.to_nat 4294967296) 0)) None []).
  cbv beta iota delta [example_collection sources].
  rewrite length_replicate. lia.
Defined.

End ExecMore.
